(** * prestomanifesto: the registry audit of main.go

    A shallow embedding of main.go and the properties of its
    reconciliation of top-level manifest lists against the images of the
    architecture namespaces.

    Conventions of the embedding.
    - Go strings are [string] (sequences of bytes); [digest.Digest] is a
      string type and is embedded as [string] too.
    - Go's [int] counters are 64-bit two's complement: they are embedded as
      [Z] and every [++] and [--] is followed by [wrap64].
    - Go maps are [gmap]s.  The order of a [range] over a map, and the order
      in which the goroutines of an [errgroup] run, are not fixed by the
      language: they are read from a [Scheduler], and every theorem holds
      for every scheduler.
    - A pair of Go results [(v, err)] is a pair whose second component is
      an [option error]; [nil] slices and maps are the empty ones.
    - Text printed on the standard output is returned as a list of
      strings; what [log] writes to the standard error is left out. *)

From stdpp Require Import base gmap list strings fin_maps.
From Stdlib Require Import ZArith Lia Ascii.

Local Open Scope Z_scope.

(** ** Strings: strings.Split and strings.Join *)

Module Strings.

(** [strings.Split(s, sep)] for a separator of one byte, the only use
    main.go makes of it (["/"] and [","]). *)
Fixpoint Split (s : string) (sep : ascii) : list string :=
  match s with
  | EmptyString => [EmptyString]
  | String c s' =>
      if Ascii.eqb c sep then EmptyString :: Split s' sep
      else match Split s' sep with
           | [] => [String c EmptyString]
           | w :: ws => String c w :: ws
           end
  end.

(** [strings.Join(elems, sep)]. *)
Fixpoint Join (elems : list string) (sep : string) : string :=
  match elems with
  | [] => ""
  | [e] => e
  | e :: es => e +:+ sep +:+ Join es sep
  end.

End Strings.

Definition slash : ascii := "/"%char.
Definition comma : ascii := ","%char.

(** ** The architecture classifier: processArch *)

(** The inner loop of [processArch]: is [prefix] one of [validArch]? *)
Fixpoint inValid (prefix : string) (validArch : list string) : bool :=
  match validArch with
  | [] => false
  | valArch :: rest =>
      if bool_decide (prefix = valArch) then true else inValid prefix rest
  end.

Fixpoint processArch (prefix : string) (allArchs validArch : list string)
  : string * bool :=
  match allArchs with
  | [] => ("", true)
  | arch :: rest =>
      if bool_decide (prefix = arch)
      then (prefix, inValid prefix validArch)
      else processArch prefix rest validArch
  end.


(** ** Errors and the registry client *)

(** A Go [error] value.  [getAllRepoTags] tells a [*json.SyntaxError] from
    every other error, so the embedding does too. *)
Inductive error : Type :=
  | SyntaxError (msg : string)
  | OtherError (msg : string).

(** [err.Error()], what [%s] prints for an error. *)
Definition errorText (err : error) : string :=
  match err with
  | SyntaxError msg => msg
  | OtherError msg => msg
  end.

(** [fmt.Errorf] with the message already formatted. *)
Definition Errorf (msg : string) : error := OtherError msg.

(** The digest of a manifest, [digest.Digest]. *)
Abbreviation Digest := string (only parsing).

(** The registry client of github.com/genuinetools/reg, which main.go
    only calls.  A call that fails answers [inl err].  The registry is
    taken as it stands during one run: the same call gives the same
    answer.  [ManifestList] gives the [Digest] fields of [ml.Manifests],
    in their order, the only part of a manifest list main.go reads. *)
Record Registry : Type := {
  Domain : string;
  Catalog : error + list string;
  Tags : string → error + list string;
  ParseImage : string → error + string;
  ImageDigest : string → error + Digest;
  ManifestList : string → string → error + list Digest
}.

(** ** The data of main.go *)

(** [type updateInfo struct]. *)
Record updateInfo : Type := { repoTag : string; archs : list string }.

(** [type containerInfo struct], local to [getUpdates]. *)
Module containerInfo.
Record t : Type := mk { digs : gmap Digest Z; archs : list string }.
End containerInfo.

(** The map [digests] of [getUpdates]. *)
Abbreviation Digests := (gmap string containerInfo.t) (only parsing).

(** ** What the language leaves open *)

(** One resolution of what Go leaves open in a run: the orders of the
    three [range] loops over maps and the orders in which the goroutines
    started with [g.Go] do their work.  Each is some arrangement of the
    entries at hand.  [goTags] and [rangeDigs] also get the key of the
    entry whose tags or counters they arrange, so that two entries with
    equal contents may still be arranged differently. *)
Record Scheduler : Type := {
  rangeRepoTags : gmap string (list string) → list (string * list string);
  rangeRepoTags_perm m : rangeRepoTags m ≡ₚ map_to_list m;
  goTags : string → list string → list string;
  goTags_perm repo tags : goTags repo tags ≡ₚ tags;
  rangeDigests : Digests → list (string * containerInfo.t);
  rangeDigests_perm m : rangeDigests m ≡ₚ map_to_list m;
  rangeDigs : string → gmap Digest Z → list (Digest * Z);
  rangeDigs_perm rt m : rangeDigs rt m ≡ₚ map_to_list m;
  goRepos : list string → list string;
  goRepos_perm repos : goRepos repos ≡ₚ repos
}.

(** The scheduler that takes every map in the order of [map_to_list] and
    runs the goroutines in the order they were started. *)
Definition inOrder : Scheduler := {|
  rangeRepoTags := map_to_list;
  rangeRepoTags_perm m := reflexivity _;
  goTags _ tags := tags;
  goTags_perm _ tags := reflexivity _;
  rangeDigests := map_to_list;
  rangeDigests_perm m := reflexivity _;
  rangeDigs _ := map_to_list;
  rangeDigs_perm _ m := reflexivity _;
  goRepos repos := repos;
  goRepos_perm repos := reflexivity _
|}.

(** ** The counters *)

(** A Go [int] on a 64-bit platform: the value of [z] in two's complement. *)
Definition wrap64 (z : Z) : Z := (z + 2 ^ 63) mod 2 ^ 64 - 2 ^ 63.

(** [digs[dig]], which is 0 when [dig] is not a key. *)
Definition at0 (digs : gmap Digest Z) (dig : Digest) : Z :=
  default 0 (digs !! dig).

(** [digs[dig]++]. *)
Definition incr (dig : Digest) (digs : gmap Digest Z) : gmap Digest Z :=
  <[dig := wrap64 (at0 digs dig + 1)]> digs.

(** [digs[dig]--]. *)
Definition decr (dig : Digest) (digs : gmap Digest Z) : gmap Digest Z :=
  <[dig := wrap64 (at0 digs dig - 1)]> digs.

(** [containerInfo{digs: make(map[digest.Digest]int)}]. *)
Definition newInfo : containerInfo.t := containerInfo.mk ∅ [].

(** ** getUpdates: the two critical sections *)

(** Lines 139-149, between [m.Lock()] and [m.Unlock()] of the branch of an
    architecture image. *)
Definition archSection (repoTag : string) (dig : Digest) (arch : string)
    (digests : Digests) : Digests :=
  let ee := match digests !! repoTag with
            | Some ee => ee
            | None => newInfo
            end in
  let ee := containerInfo.mk (incr dig (containerInfo.digs ee))
                             (containerInfo.archs ee ++ [arch]) in
  <[repoTag := ee]> digests.

(** [digests[repoTag].digs[dig]--] of line 166.  The counters of an entry
    are one Go map shared by all copies of the entry, so the assignment
    through a copy changes the entry.  On a missing key Go would assign
    into a nil map and panic; line 157 rules that out. *)
Definition decrement (repoTag : string) (digests : Digests) (dig : Digest)
    : Digests :=
  match digests !! repoTag with
  | Some info =>
      <[repoTag := containerInfo.mk (decr dig (containerInfo.digs info))
                                    (containerInfo.archs info)]> digests
  | None => digests
  end.

(** Lines 157-162.  Every entry of [digests] is stored with counters made
    by [make], so [digests[repoTag].digs == nil] holds exactly when
    [repoTag] is not a key. *)
Definition ensure (repoTag : string) (digests : Digests) : Digests :=
  match digests !! repoTag with
  | None => <[repoTag := newInfo]> digests
  | Some _ => digests
  end.

(** Lines 156-168, between [m.Lock()] and [m.Unlock()] of the branch of a
    top-level tag; [ml] is [ml.Manifests]. *)
Definition topSection (repoTag : string) (ml : list Digest)
    (digests : Digests) : Digests :=
  fold_left (decrement repoTag) ml (ensure repoTag digests).

(** ** getUpdates: the goroutines and the loops *)

(** The function handed to [g.Go] at line 125, for one [tag] of [repo].
    The fetch comes first and touches nothing; a fetch that fails ends the
    goroutine with its error, one that succeeds is followed by the
    critical section. *)
Definition task (reg : Registry) (repo : string) (rSplit : list string)
    (arch : string) (isArch : bool) (tag : string) (digests : Digests)
    : error + Digests :=
  if isArch then
    match ParseImage reg (Domain reg +:+ "/" +:+ repo +:+ ":" +:+ tag) with
    | inl err => inl err
    | inr image =>
        match ImageDigest reg image with
        | inl err => inl err
        | inr dig =>
            let repoNoarch := Strings.Join (tail rSplit) "/" in
            let repoTag := repoNoarch +:+ ":" +:+ tag in
            inr (archSection repoTag dig arch digests)
        end
    end
  else
    match ManifestList reg repo tag with
    | inl err => inl err
    | inr ml =>
        let repoTag := repo +:+ ":" +:+ tag in
        inr (topSection repoTag ml digests)
    end.

(** The goroutines of one repository, from the [g.Go] calls to [g.Wait()]:
    [order] lists the tags in the order in which their goroutines do their
    work.  [g.Wait()] gives the error of the first goroutine that failed.
    The goroutines after it still run in Go, but [getUpdates] then returns
    [nil, err] and [digests] is dropped, so what they do is not followed. *)
Fixpoint goWait (f : string → Digests → error + Digests)
    (order : list string) (digests : Digests) : error + Digests :=
  match order with
  | [] => inr digests
  | tag :: rest =>
      match f tag digests with
      | inl err => inl err
      | inr digests' => goWait f rest digests'
      end
  end.

(** The loop of lines 114-176 over the entries of [repoTags] in the order
    [range] yields them.  [rSplit[0]] exists since [strings.Split] never
    gives an empty slice. *)
Fixpoint reconcileLoop (sch : Scheduler) (reg : Registry)
    (allArchs validArch : list string)
    (entries : list (string * list string)) (digests : Digests)
    : error + Digests :=
  match entries with
  | [] => inr digests
  | (repo, tags) :: rest =>
      let rSplit := Strings.Split repo slash in
      let '(arch, ok) := processArch (hd "" rSplit) allArchs validArch in
      if negb ok then reconcileLoop sch reg allArchs validArch rest digests
      else
        let isArch := negb (bool_decide (arch = "")) in
        match goWait (task reg repo rSplit arch isArch)
                     (goTags sch repo tags) digests with
        | inl err => inl err
        | inr digests' =>
            reconcileLoop sch reg allArchs validArch rest digests'
        end
  end.

(** Lines 108-176: [digests] when the loop over [repoTags] is over, or the
    error that ended it. *)
Definition reconcile (sch : Scheduler) (reg : Registry)
    (repoTags : gmap string (list string)) (allArchs validArch : list string)
    : error + Digests :=
  reconcileLoop sch reg allArchs validArch (rangeRepoTags sch repoTags) ∅.

(** Lines 180-186: the loop over the counters of one entry, left at the
    first one that is not 0. *)
Fixpoint needsUpdate (counters : list (Digest * Z)) : bool :=
  match counters with
  | [] => false
  | (_, n) :: rest => if bool_decide (n ≠ 0) then true else needsUpdate rest
  end.

(** Lines 178-190: the loop over the entries of [digests]. *)
Fixpoint collectUpdates (sch : Scheduler)
    (entries : list (string * containerInfo.t)) : list updateInfo :=
  match entries with
  | [] => []
  | (rt, info) :: rest =>
      if needsUpdate (rangeDigs sch rt (containerInfo.digs info))
      then {| repoTag := rt; archs := containerInfo.archs info |}
             :: collectUpdates sch rest
      else collectUpdates sch rest
  end.

Definition getUpdates (sch : Scheduler) (reg : Registry)
    (repoTags : gmap string (list string)) (allArchs validArch : list string)
    : list updateInfo * option error :=
  match reconcile sch reg repoTags allArchs validArch with
  | inl err => ([], Some err)
  | inr digests => (collectUpdates sch (rangeDigests sch digests), None)
  end.

(** ** pushUpdates *)

Definition createCmd : list string :=
  ["docker"; "manifest"; "create"; "--insecure"; "--amend"].
Definition pushCmd : list string :=
  ["docker"; "manifest"; "push"; "--insecure"].

(** The loop of lines 91-93.  [createCmd] and [pushCmd] are slices whose
    capacity is their length, so every [append] to them copies and no two
    commands share storage. *)
Definition addArchs (domain rt : string) (cCmd : list string)
    (archs : list string) : list string :=
  fold_left (λ cCmd a, cCmd ++ [domain +:+ "/" +:+ a +:+ "/" +:+ rt])
            archs cCmd.

(** The two lines one [updateInfo] makes [pushUpdates] print. *)
Definition pushOne (domain : string) (u : updateInfo) : list string :=
  let topLevel := domain +:+ "/" +:+ repoTag u in
  let cCmd := addArchs domain (repoTag u) (createCmd ++ [topLevel]) (archs u) in
  let pCmd := pushCmd ++ [topLevel] in
  [Strings.Join cCmd " "; Strings.Join pCmd " "].

(** [pushUpdates]: the arguments of its calls of [fmt.Println], in the
    order of the calls, and the error it returns, which is always [nil]. *)
Definition pushUpdates (updateInfo : list updateInfo) (domain : string)
    : list string * option error :=
  (fold_left (λ out u, out ++ pushOne domain u) updateInfo [], None).

(** ** getAllRepoTags *)

(** The goroutine of lines 211-222 for [repo], on the text printed so far,
    the map [repoTags] and the error the group holds: an [errgroup] keeps
    the first error it is given.  A goroutine that fails prints and hands
    over its error in one step.  The state is in the second argument as
    the goroutines are folded over the list of repositories. *)
Definition tagsTask (reg : Registry)
    (acc : list string * (gmap string (list string) * option error))
    (repo : string)
    : list string * (gmap string (list string) * option error) :=
  let '(out, (repoTags, first)) := acc in
  match Tags reg repo with
  | inl err =>
      (out ++ ["get tags of [" +:+ repo +:+ "] error: " +:+ errorText err],
       (repoTags, match first with
                  | None => Some err
                  | Some _ => first
                  end))
  | inr tags => (out, (<[repo := tags]> repoTags, first))
  end.

(** [getAllRepoTags]: what it prints, and the pair it returns.  No
    goroutine is stopped when another fails, and [g.Wait()] waits for them
    all, so [repoTags] holds the tags of every repository whose listing
    succeeded when line 225 returns it together with the error. *)
Definition getAllRepoTags (sch : Scheduler) (reg : Registry)
    : list string * (gmap string (list string) * option error) :=
  match Catalog reg with
  | inl (SyntaxError _) =>
      ([], (∅, Some (Errorf ("domain " +:+ Domain reg
                               +:+ " is not a valid registry"))))
  | inl err => ([], (∅, Some err))
  | inr repos => fold_left (tagsTask reg) (goRepos sch repos) ([], (∅, None))
  end.

(** ** run and main *)

Definition newline : string := String (ascii_of_nat 10) "".

(** What [fmt.Println(s)] writes. *)
Definition Println (s : string) : string := s +:+ newline.

(** [run]: the text written to the standard output and the error returned. *)
Definition run (sch : Scheduler) (reg : Registry)
    (allArchs archs : list string) : list string * option error :=
  let '(out, (repoTags, err)) := getAllRepoTags sch reg in
  match err with
  | Some err => (out, Some err)
  | None =>
      let '(updates, err) := getUpdates sch reg repoTags allArchs archs in
      match err with
      | Some err => (out, Some err)
      | None =>
          let nrUpdates := length updates in
          if bool_decide (nrUpdates = 0%nat) then (out, None)
          else
            let '(lines, err) := pushUpdates updates (Domain reg) in
            (out ++ (Println <$> lines), err)
      end
  end.

(** [types.AuthConfig], as far as [getRegistry] fills it. *)
Record AuthConfig : Type := {
  Username : string;
  Password : string;
  ServerAddress : string
}.

(** The two calls of [getRegistry] into packages outside main.go:
    [repoutils.GetAuthConfig] and [registry.New], the latter with the
    [Domain] of its options. *)
Record Packages : Type := {
  GetAuthConfig : string → string → string → error + AuthConfig;
  New : AuthConfig → string → error + Registry
}.

Definition getRegistry (pkg : Packages) (username password domain : string)
    : error + Registry :=
  match GetAuthConfig pkg username password domain with
  | inl err => inl err
  | inr auth =>
      match New pkg auth ("https://" +:+ domain) with
      | inl err => inl err
      | inr reg => inr reg
      end
  end.

(** How the process ends: after [flag.Usage()] with [os.Exit(1)], in
    [log.Fatal] with its message (exit status 1), or by the return of
    [main] (exit status 0). *)
Inductive ending : Type :=
  | UsageExit
  | Fatal (msg : string)
  | Returned.

Definition exitStatus (e : ending) : Z :=
  match e with
  | UsageExit => 1
  | Fatal _ => 1
  | Returned => 0
  end.

(** [main], after [flag.Parse()]: [a] and [all] are the values given to
    the flags (none: the default), [args] the positional arguments.  The
    result is the text on the standard output and the way the process
    ends.  The registry is first reached in [getRegistry]. *)
Definition main (sch : Scheduler) (pkg : Packages)
    (a all : option string) (args : list string) : list string * ending :=
  let archs := default "amd64,s390x" a in
  let allArchs := default "amd64,s390x,ppc64le,arm64" all in
  if bool_decide (length args ≠ 1%nat) then ([], UsageExit)
  else
    let allArchsSplit := Strings.Split allArchs comma in
    let archsSplit := Strings.Split archs comma in
    if bool_decide (length allArchsSplit = 0%nat)
    then ([], Fatal "list of '-all' architectures not allowed to be empty")
    else if bool_decide (length archsSplit = 0%nat)
    then ([], Fatal "list of '-a' architectures not allowed to be empty")
    else
      let domain := hd "" args in
      match getRegistry pkg "" "" domain with
      | inl err => ([], Fatal (errorText err))
      | inr reg =>
          match run sch reg allArchsSplit archsSplit with
          | (out, Some err) => (out, Fatal (errorText err))
          | (out, None) => (out, Returned)
          end
      end.

(** ** Reading the result *)

(** [digests[rt].digs[d]]: the count stored for [d] in the balance of
    [rt]; a missing key reads as 0 in both maps. *)
Definition count (digests : Digests) (rt : string) (d : Digest) : Z :=
  match digests !! rt with
  | Some info => at0 (containerInfo.digs info) d
  | None => 0
  end.

(** [digests[rt].archs]. *)
Definition archsOf (digests : Digests) (rt : string) : list string :=
  match digests !! rt with
  | Some info => containerInfo.archs info
  | None => []
  end.

(** [digests[rt].digs], the balance of [rt]. *)
Definition balance (digests : Digests) (rt : string) : gmap Digest Z :=
  match digests !! rt with
  | Some info => containerInfo.digs info
  | None => ∅
  end.

(** The sum of the absolute values of the counts of a balance. *)
Definition sumAbs (digs : gmap Digest Z) : Z :=
  map_fold (λ _ n acc, Z.abs n + acc) 0 digs.

(** No count is outside the range of a Go [int]. *)
Definition inRange (digests : Digests) : Prop :=
  ∀ rt d, - 2 ^ 63 ≤ count digests rt d < 2 ^ 63.

(** ** The observations of a run, in the words of the specification *)

(** An architecture image of [repoTag] was seen with digest [dig] in the
    namespace [arch]; or a top-level manifest list of [repoTag] has an
    entry for [dig]. *)
Inductive observation : Type :=
  | Produced (repoTag : string) (dig : Digest) (arch : string)
  | Declared (repoTag : string) (dig : Digest).

(** What the fetch for one tag of one repository yields (sections 4.3 and
    6 of the specification): nothing for a repository that is skipped, one
    [Produced] for the image of a selected architecture, one [Declared]
    for each entry of the manifest list of a top-level tag; or the error
    of the fetch. *)
Definition fetched (reg : Registry) (allArchs validArch : list string)
    (repo tag : string) : error + list observation :=
  let rSplit := Strings.Split repo slash in
  match processArch (hd "" rSplit) allArchs validArch with
  | (_, false) => inr []
  | (arch, true) =>
      if bool_decide (arch = "") then
        match ManifestList reg repo tag with
        | inl err => inl err
        | inr ml => inr (Declared (repo +:+ ":" +:+ tag) <$> ml)
        end
      else
        match ParseImage reg (Domain reg +:+ "/" +:+ repo +:+ ":" +:+ tag) with
        | inl err => inl err
        | inr image =>
            match ImageDigest reg image with
            | inl err => inl err
            | inr dig =>
                inr [Produced (Strings.Join (tail rSplit) "/" +:+ ":" +:+ tag)
                              dig arch]
            end
        end
  end.

Definition fetchObservations (reg : Registry)
    (allArchs validArch : list string) (repo tag : string)
    : list observation :=
  match fetched reg allArchs validArch repo tag with
  | inl _ => []
  | inr obs => obs
  end.

(** The observations of the tags of one repository, and of a whole
    traversal, in the order in which they are folded in. *)
Definition repoObservations (sch : Scheduler) (reg : Registry)
    (allArchs validArch : list string) (entry : string * list string)
    : list observation :=
  flat_map (fetchObservations reg allArchs validArch entry.1)
           (goTags sch entry.1 entry.2).

Definition observations (sch : Scheduler) (reg : Registry)
    (repoTags : gmap string (list string)) (allArchs validArch : list string)
    : list observation :=
  flat_map (repoObservations sch reg allArchs validArch)
           (rangeRepoTags sch repoTags).

(** How many of [obs] satisfy [p]. *)
Fixpoint tally (p : observation → bool) (obs : list observation) : Z :=
  match obs with
  | [] => 0
  | o :: rest => (if p o then 1 else 0) + tally p rest
  end.

Definition isProduced (rt : string) (d : Digest) (o : observation) : bool :=
  match o with
  | Produced rt' d' _ => bool_decide (rt' = rt ∧ d' = d)
  | Declared _ _ => false
  end.

Definition isDeclared (rt : string) (d : Digest) (o : observation) : bool :=
  match o with
  | Produced _ _ _ => false
  | Declared rt' d' => bool_decide (rt' = rt ∧ d' = d)
  end.

(** The number of architecture images seen for [rt] with digest [d]. *)
Definition produced (obs : list observation) (rt : string) (d : Digest) : Z :=
  tally (isProduced rt d) obs.

(** The number of manifest-list entries of [rt] that declare [d]. *)
Definition declared (obs : list observation) (rt : string) (d : Digest) : Z :=
  tally (isDeclared rt d) obs.

(** The architectures of the images seen for [rt], in the order seen. *)
Fixpoint contributors (obs : list observation) (rt : string) : list string :=
  match obs with
  | [] => []
  | Produced rt' _ arch :: rest =>
      if bool_decide (rt' = rt) then arch :: contributors rest rt
      else contributors rest rt
  | Declared _ _ :: rest => contributors rest rt
  end.

(** Folding one observation in: the critical section of the goroutine
    that made it, a manifest-list entry being a list of one. *)
Definition observe (digests : Digests) (o : observation) : Digests :=
  match o with
  | Produced rt d arch => archSection rt d arch digests
  | Declared rt d => topSection rt [d] digests
  end.

(** Does [o] bear on the count of [d] for [rt], and by how much. *)
Definition touches (rt : string) (d : Digest) (o : observation) : bool :=
  isProduced rt d o || isDeclared rt d o.

Definition delta (o : observation) : Z :=
  match o with
  | Produced _ _ _ => 1
  | Declared _ _ => -1
  end.

(** Two states of [digests] that read the same count everywhere. *)
Definition sameCounts (digests digests' : Digests) : Prop :=
  ∀ rt d, count digests rt d = count digests' rt d.

(** [obs] takes [digests] to [digests']: the counts move by the
    observations and the architectures of the images are appended. *)
Definition Tracks (obs : list observation) (digests digests' : Digests)
    : Prop :=
  inRange digests' ∧
  (∀ rt d, count digests' rt d =
           wrap64 (count digests rt d + produced obs rt d - declared obs rt d)) ∧
  (∀ rt, archsOf digests' rt = archsOf digests rt ++ contributors obs rt).

(** ** The plan, in the words of the specification *)

(** The path of the top-level image and of the image of one architecture. *)
Definition topLevelPath (domain rt : string) : string :=
  domain +:+ "/" +:+ rt.

Definition archPath (domain rt a : string) : string :=
  domain +:+ "/" +:+ a +:+ "/" +:+ rt.

(** The command that creates or amends the manifest list of a record: the
    top-level path, then one path for each contributing architecture. *)
Definition createLine (domain : string) (u : updateInfo) : string :=
  Strings.Join
    (["docker"; "manifest"; "create"; "--insecure"; "--amend";
      topLevelPath domain (repoTag u)]
     ++ (archPath domain (repoTag u) <$> archs u)) " ".

(** The command that pushes it: the top-level path alone. *)
Definition pushLine (domain : string) (u : updateInfo) : string :=
  Strings.Join
    ["docker"; "manifest"; "push"; "--insecure";
     topLevelPath domain (repoTag u)] " ".

(** ** A registry to run the definitions on *)

(** The registry of the example of the README and of the end-to-end
    scenario of the specification: [rck:latest] lists [sha256:AAA], the
    image of amd64 has that digest and the image of s390x has
    [sha256:BBB].  The repository [private] cannot be listed. *)
Module Sample.

Definition reg : Registry := {|
  Domain := "registry.io";
  Catalog := inr ["rck"; "amd64/rck"; "s390x/rck"];
  Tags repo :=
    if bool_decide (repo = "private") then inl (OtherError "unauthorized")
    else inr ["latest"];
  ParseImage s := inr s;
  ImageDigest image :=
    if bool_decide (image = "registry.io/amd64/rck:latest")
    then inr "sha256:AAA"
    else if bool_decide (image = "registry.io/s390x/rck:latest")
    then inr "sha256:BBB"
    else inl (OtherError "manifest unknown");
  ManifestList repo tag :=
    if bool_decide (repo = "rck" ∧ tag = "latest") then inr ["sha256:AAA"]
    else inl (OtherError "manifest unknown")
|}.

(** The same registry with [private] in its catalog. *)
Definition regPrivate : Registry := {|
  Domain := Domain reg;
  Catalog := inr ["rck"; "private"];
  Tags := Tags reg;
  ParseImage := ParseImage reg;
  ImageDigest := ImageDigest reg;
  ManifestList := ManifestList reg
|}.

Definition allArchs : list string := ["amd64"; "s390x"; "ppc64le"; "arm64"].
Definition archs : list string := ["amd64"; "s390x"].

(** The tags of the three repositories. *)
Definition repoTags : gmap string (list string) :=
  <["rck" := ["latest"]]>
    (<["amd64/rck" := ["latest"]]> (<["s390x/rck" := ["latest"]]> ∅)).

(** The top-level repository alone. *)
Definition topOnly : gmap string (list string) := {["rck" := ["latest"]]}.

(** A tag of the top-level repository that has no manifest list. *)
Definition withStale : gmap string (list string) :=
  {["rck" := ["latest"; "old"]]}.

Definition pkg : Packages := {|
  GetAuthConfig username password domain :=
    inr {| Username := username; Password := password;
           ServerAddress := domain |};
  New auth domain := inr reg
|}.

(** The order opposite to [inOrder]. *)
Definition reversed : Scheduler := {|
  rangeRepoTags m := reverse (map_to_list m);
  rangeRepoTags_perm m := reverse_Permutation _;
  goTags _ tags := reverse tags;
  goTags_perm _ tags := reverse_Permutation _;
  rangeDigests m := reverse (map_to_list m);
  rangeDigests_perm m := reverse_Permutation _;
  rangeDigs _ m := reverse (map_to_list m);
  rangeDigs_perm _ m := reverse_Permutation _;
  goRepos repos := reverse repos;
  goRepos_perm repos := reverse_Permutation _
|}.

(** [digests] at the end of the reconciliation of [repoTags] under
    [inOrder] and under [reversed]. *)
Definition digests : gmap string containerInfo.t :=
  {[ "rck:latest" :=
       containerInfo.mk (<["sha256:AAA" := 0]> {["sha256:BBB" := 1]})
                        ["s390x"; "amd64"] ]}.

Definition digestsReversed : gmap string containerInfo.t :=
  {[ "rck:latest" :=
       containerInfo.mk (<["sha256:AAA" := 0]> {["sha256:BBB" := 1]})
                        ["amd64"; "s390x"] ]}.

End Sample.

(** ** Bytes of a string, and more registries *)

(** Does the byte [c] occur in [s]? *)
Fixpoint hasByte (c : ascii) (s : string) : bool :=
  match s with
  | EmptyString => false
  | String c' s' => Ascii.eqb c' c || hasByte c s'
  end.

Definition space : ascii := " "%char.

(** What the goroutine of [getAllRepoTags] prints for [repo] when its
    listing fails with [err] (line 214). *)
Definition listingLine (repo : string) (err : error) : string :=
  "get tags of [" +:+ repo +:+ "] error: " +:+ errorText err.

(** The line printed for [repo], if its listing fails. *)
Definition listingFailure (reg : Registry) (repo : string) : option string :=
  match Tags reg repo with
  | inl err => Some (listingLine repo err)
  | inr _ => None
  end.

Module Cases.

(** A registry whose catalog does not parse. *)
Definition regNoCatalog : Registry := {|
  Domain := "registry.io";
  Catalog := inl (SyntaxError "invalid character '<' looking for beginning of value");
  Tags := Tags Sample.reg;
  ParseImage := ParseImage Sample.reg;
  ImageDigest := ImageDigest Sample.reg;
  ManifestList := ManifestList Sample.reg
|}.

(** The packages when the credentials cannot be read, and when the
    registry reached is [regNoCatalog]. *)
Definition pkgNoAuth : Packages := {|
  GetAuthConfig username password domain :=
    inl (OtherError "no credentials");
  New auth domain := inr Sample.reg
|}.

Definition pkgNoCatalog : Packages := {|
  GetAuthConfig := GetAuthConfig Sample.pkg;
  New auth domain := inr regNoCatalog
|}.

(** A catalog with two repositories that cannot be listed. *)
Definition regTwoPrivate : Registry := {|
  Domain := Domain Sample.reg;
  Catalog := inr ["private"; "rck"; "private"];
  Tags := Tags Sample.reg;
  ParseImage := ParseImage Sample.reg;
  ImageDigest := ImageDigest Sample.reg;
  ManifestList := ManifestList Sample.reg
|}.

(** Only repositories of architectures left out of the run, and one
    without tags. *)
Definition leftOut : gmap string (list string) :=
  <["ppc64le/rck" := ["latest"]]> (<["arm64/rck" := ["latest"; "old"]]>
                                     {["rck" := []]}).

(** The packages when the registry does not answer. *)
Definition pkgNoRegistry : Packages := {|
  GetAuthConfig := GetAuthConfig Sample.pkg;
  New auth domain := inl (OtherError "connection refused")
|}.

(** A registry where every image has the same digest. *)
Definition regOneDigest : Registry := {|
  Domain := Domain Sample.reg;
  Catalog := Catalog Sample.reg;
  Tags := Tags Sample.reg;
  ParseImage := ParseImage Sample.reg;
  ImageDigest image := inr "sha256:CCC";
  ManifestList := ManifestList Sample.reg
|}.

(** The record of the sample. *)
Definition record : updateInfo :=
  {| repoTag := "rck:latest"; archs := ["s390x"; "amd64"] |}.

End Cases.

(** * Properties *)

(** ** strings.Split *)

Lemma Split_length s sep : (1 <= length (Strings.Split s sep))%nat.
Proof.
  induction s as [|c s IH]; simpl; [lia|].
  destruct (Ascii.eqb c sep); simpl; [lia|].
  destruct (Strings.Split s sep); simpl in *; lia.
Qed.

Lemma Split_nonempty s sep : Strings.Split s sep ≠ [].
Proof.
  intros E. pose proof (Split_length s sep) as H.
  rewrite E in H. simpl in H. lia.
Qed.

(** ** The classifier *)

Lemma inValid_spec prefix validArch :
  inValid prefix validArch = true ↔ prefix ∈ validArch.
Proof.
  induction validArch as [|v vs IH]; simpl.
  - split; [done | by intros ?%elem_of_nil].
  - case_bool_decide as E.
    + subst. split; [intros _; left | done].
    + rewrite IH. split; [by right |].
      intros [?|?]%elem_of_cons; done.
Qed.

Lemma processArch_not_arch prefix allArchs validArch :
  prefix ∉ allArchs → processArch prefix allArchs validArch = ("", true).
Proof.
  induction allArchs as [|a rest IH]; simpl; [done|].
  intros Hn. case_bool_decide as E.
  - subst. exfalso. apply Hn. left.
  - apply IH. intros ?. apply Hn. by right.
Qed.

Lemma processArch_arch prefix allArchs validArch :
  prefix ∈ allArchs →
  processArch prefix allArchs validArch = (prefix, inValid prefix validArch).
Proof.
  induction allArchs as [|a rest IH]; simpl.
  - by intros ?%elem_of_nil.
  - intros Hin. case_bool_decide as E; [done|].
    apply IH. apply elem_of_cons in Hin as [?|?]; done.
Qed.

(** C4: the classifier answers [("", true)] for a prefix that is not a
    known architecture, [(prefix, false)] for a known architecture that is
    not processed in this run and [(prefix, true)] for one that is; the
    three examples of the specification evaluate as stated. *)
Theorem processArch_classifies :
  (∀ prefix allArchs validArch,
      (prefix ∉ allArchs →
       processArch prefix allArchs validArch = ("", true)) ∧
      (prefix ∈ allArchs → prefix ∉ validArch →
       processArch prefix allArchs validArch = (prefix, false)) ∧
      (prefix ∈ allArchs → prefix ∈ validArch →
       processArch prefix allArchs validArch = (prefix, true))) ∧
  processArch "arm64" ["amd64"; "arm64"] ["amd64"] = ("arm64", false) ∧
  processArch "myimage" ["amd64"; "arm64"] ["amd64"] = ("", true) ∧
  processArch "amd64" ["amd64"; "arm64"] ["amd64"; "arm64"] = ("amd64", true).
Proof.
  split; [|by repeat split].
  intros prefix allArchs validArch. repeat split.
  - apply processArch_not_arch.
  - intros Hin Hnv. rewrite processArch_arch by done. f_equal.
    destruct (inValid prefix validArch) eqn:E; [|done].
    by apply inValid_spec in E.
  - intros Hin Hv. rewrite processArch_arch by done. f_equal.
    by apply inValid_spec.
Qed.

(** ** The counters *)

Lemma wrap64_range z : - 2 ^ 63 ≤ wrap64 z < 2 ^ 63.
Proof.
  unfold wrap64.
  pose proof (Z.mod_pos_bound (z + 2 ^ 63) (2 ^ 64) ltac:(lia)). lia.
Qed.

Lemma wrap64_id z : - 2 ^ 63 ≤ z < 2 ^ 63 → wrap64 z = z.
Proof. intros H. unfold wrap64. rewrite Z.mod_small; lia. Qed.

Lemma wrap64_add z k : wrap64 (wrap64 z + k) = wrap64 (z + k).
Proof.
  unfold wrap64. f_equal.
  replace ((z + 2 ^ 63) mod 2 ^ 64 - 2 ^ 63 + k + 2 ^ 63)
    with ((z + 2 ^ 63) mod 2 ^ 64 + k) by lia.
  rewrite Zplus_mod_idemp_l. f_equal. lia.
Qed.

Lemma wrap64_0 : wrap64 0 = 0.
Proof. reflexivity. Qed.

Lemma at0_incr dig digs d :
  at0 (incr dig digs) d =
  if decide (dig = d) then wrap64 (at0 digs d + 1) else at0 digs d.
Proof.
  unfold at0, incr. rewrite lookup_insert.
  destruct (decide (dig = d)); by subst.
Qed.

Lemma at0_decr dig digs d :
  at0 (decr dig digs) d =
  if decide (dig = d) then wrap64 (at0 digs d - 1) else at0 digs d.
Proof.
  unfold at0, decr. rewrite lookup_insert.
  destruct (decide (dig = d)); by subst.
Qed.

(** ** The critical sections *)

Lemma count_archSection rt dig arch digests rt' d :
  count (archSection rt dig arch digests) rt' d =
  if decide (rt = rt' ∧ dig = d) then wrap64 (count digests rt' d + 1)
  else count digests rt' d.
Proof.
  unfold count, archSection. rewrite lookup_insert.
  destruct (decide (rt = rt')) as [->|Hrt]; simpl.
  - rewrite at0_incr. destruct (decide (dig = d)) as [->|Hd].
    + rewrite decide_True by done. by destruct (digests !! rt').
    + rewrite decide_False by (by intros [_ ?]). by destruct (digests !! rt').
  - by rewrite decide_False by (by intros [? _]).
Qed.

Lemma archsOf_archSection rt dig arch digests rt' :
  archsOf (archSection rt dig arch digests) rt' =
  if decide (rt = rt') then archsOf digests rt' ++ [arch]
  else archsOf digests rt'.
Proof.
  unfold archsOf, archSection. rewrite lookup_insert.
  destruct (decide (rt = rt')) as [->|Hrt]; simpl; [|done].
  by destruct (digests !! rt').
Qed.

Lemma count_ensure rt digests rt' d :
  count (ensure rt digests) rt' d = count digests rt' d.
Proof.
  unfold count, ensure. destruct (digests !! rt) eqn:E; [done|].
  rewrite lookup_insert. destruct (decide (rt = rt')) as [->|]; simpl; [|done].
  by rewrite E.
Qed.

Lemma archsOf_ensure rt digests rt' :
  archsOf (ensure rt digests) rt' = archsOf digests rt'.
Proof.
  unfold archsOf, ensure. destruct (digests !! rt) eqn:E; [done|].
  rewrite lookup_insert. destruct (decide (rt = rt')) as [->|]; simpl; [|done].
  by rewrite E.
Qed.

Lemma ensure_is_Some rt digests : is_Some (ensure rt digests !! rt).
Proof.
  unfold ensure. destruct (digests !! rt) eqn:E; [by rewrite E|].
  by rewrite lookup_insert_eq.
Qed.

Lemma decrement_is_Some rt digests dig :
  is_Some (digests !! rt) → is_Some (decrement rt digests dig !! rt).
Proof.
  intros [info E]. unfold decrement. rewrite E. by rewrite lookup_insert_eq.
Qed.

Lemma count_decrement rt digests dig rt' d :
  is_Some (digests !! rt) →
  count (decrement rt digests dig) rt' d =
  if decide (rt = rt' ∧ dig = d) then wrap64 (count digests rt' d - 1)
  else count digests rt' d.
Proof.
  intros [info E]. unfold count, decrement. rewrite E, lookup_insert.
  destruct (decide (rt = rt')) as [->|Hrt]; simpl.
  - rewrite at0_decr, E. destruct (decide (dig = d)) as [->|Hd].
    + by rewrite decide_True by done.
    + by rewrite decide_False by (by intros [_ ?]).
  - by rewrite decide_False by (by intros [? _]).
Qed.

Lemma archsOf_decrement rt digests dig rt' :
  archsOf (decrement rt digests dig) rt' = archsOf digests rt'.
Proof.
  unfold archsOf, decrement. destruct (digests !! rt) as [info|] eqn:E; [|done].
  rewrite lookup_insert. destruct (decide (rt = rt')) as [->|]; simpl; [|done].
  by rewrite E.
Qed.

(** ** Counting observations *)

Lemma tally_app p obs1 obs2 :
  tally p (obs1 ++ obs2) = tally p obs1 + tally p obs2.
Proof. induction obs1 as [|o obs1 IH]; simpl; lia. Qed.

Lemma tally_bounds p obs : 0 ≤ tally p obs ≤ Z.of_nat (length obs).
Proof. induction obs as [|o obs IH]; simpl; [lia|]. destruct (p o); lia. Qed.

Lemma tally_Permutation p obs1 obs2 :
  obs1 ≡ₚ obs2 → tally p obs1 = tally p obs2.
Proof. induction 1; simpl; lia. Qed.

Lemma tally_zero p obs :
  tally p obs = 0 ↔ ∀ o, o ∈ obs → p o = false.
Proof.
  induction obs as [|o obs IH]; simpl.
  - split; [intros _ o ?%elem_of_nil; done | done].
  - pose proof (tally_bounds p obs). split.
    + intros H' o' Hin. apply elem_of_cons in Hin as [E|Hin].
      * subst o'. destruct (p o); [lia | done].
      * apply IH; [destruct (p o); lia | done].
    + intros H'. rewrite (H' o) by left.
      simpl. apply IH. intros o' ?. apply H'. by right.
Qed.

Lemma contributors_app obs1 obs2 rt :
  contributors (obs1 ++ obs2) rt = contributors obs1 rt ++ contributors obs2 rt.
Proof.
  induction obs1 as [|[rt' d a|rt' d] obs1 IH]; simpl; [done| |done].
  case_bool_decide; simpl; by rewrite ?IH.
Qed.

Lemma contributors_nil obs rt :
  (∀ d arch, Produced rt d arch ∉ obs) → contributors obs rt = [].
Proof.
  induction obs as [|[rt' d a|rt' d] obs IH]; simpl; intros H'; [done| |].
  - case_bool_decide as E.
    + subst. exfalso. apply (H' d a). left.
    + apply IH. intros d' a' ?. apply (H' d' a'). by right.
  - apply IH. intros d' a' ?. apply (H' d' a'). by right.
Qed.

(** ** Tracking the observations through the critical sections *)

Lemma Tracks_nil digests : inRange digests → Tracks [] digests digests.
Proof.
  intros Hr. split; [done|]. split.
  - intros rt d. unfold produced, declared. simpl.
    rewrite wrap64_id; [lia|]. specialize (Hr rt d). lia.
  - intros rt. simpl. by rewrite app_nil_r.
Qed.

Lemma Tracks_app obs1 obs2 digests digests1 digests2 :
  Tracks obs1 digests digests1 → Tracks obs2 digests1 digests2 →
  Tracks (obs1 ++ obs2) digests digests2.
Proof.
  intros (_ & Hc1 & Ha1) (Hr2 & Hc2 & Ha2). split; [done|]. split.
  - intros rt d. rewrite Hc2, Hc1. unfold produced, declared.
    rewrite !tally_app.
    replace (wrap64 (count digests rt d + tally (isProduced rt d) obs1
                     - tally (isDeclared rt d) obs1)
             + tally (isProduced rt d) obs2 - tally (isDeclared rt d) obs2)
      with (wrap64 (count digests rt d + tally (isProduced rt d) obs1
                    - tally (isDeclared rt d) obs1)
            + (tally (isProduced rt d) obs2 - tally (isDeclared rt d) obs2))
      by lia.
    rewrite wrap64_add. f_equal. lia.
  - intros rt. by rewrite Ha2, Ha1, contributors_app, app_assoc.
Qed.

Lemma Tracks_archSection rt dig arch digests :
  inRange digests →
  Tracks [Produced rt dig arch] digests (archSection rt dig arch digests).
Proof.
  intros Hr. split; [|split].
  - intros rt' d. rewrite count_archSection.
    case_decide; [apply wrap64_range | apply Hr].
  - intros rt' d. rewrite count_archSection. unfold produced, declared. simpl.
    destruct (decide (rt = rt' ∧ dig = d)) as [E|E].
    + rewrite bool_decide_eq_true_2 by done. f_equal. lia.
    + rewrite bool_decide_eq_false_2 by done.
      rewrite wrap64_id; [lia|]. specialize (Hr rt' d). lia.
  - intros rt'. rewrite archsOf_archSection. simpl.
    destruct (decide (rt = rt')) as [E|E].
    + by rewrite bool_decide_eq_true_2 by done.
    + rewrite bool_decide_eq_false_2 by done. by rewrite app_nil_r.
Qed.

Lemma Tracks_ensure rt digests :
  inRange digests → Tracks [] digests (ensure rt digests).
Proof.
  intros Hr. split; [|split].
  - intros rt' d. rewrite count_ensure. apply Hr.
  - intros rt' d. rewrite count_ensure. by apply Tracks_nil.
  - intros rt'. rewrite archsOf_ensure. simpl. by rewrite app_nil_r.
Qed.

Lemma Tracks_decrement rt dig digests :
  inRange digests → is_Some (digests !! rt) →
  Tracks [Declared rt dig] digests (decrement rt digests dig).
Proof.
  intros Hr Hs. split; [|split].
  - intros rt' d. rewrite count_decrement by done.
    case_decide; [apply wrap64_range | apply Hr].
  - intros rt' d. rewrite count_decrement by done.
    unfold produced, declared. simpl.
    destruct (decide (rt = rt' ∧ dig = d)) as [E|E].
    + rewrite bool_decide_eq_true_2 by done. f_equal. lia.
    + rewrite bool_decide_eq_false_2 by done.
      rewrite wrap64_id; [lia|]. specialize (Hr rt' d). lia.
  - intros rt'. rewrite archsOf_decrement. simpl. by rewrite app_nil_r.
Qed.

Lemma Tracks_decrements rt ml digests :
  inRange digests → is_Some (digests !! rt) →
  Tracks (Declared rt <$> ml) digests (fold_left (decrement rt) ml digests).
Proof.
  revert digests. induction ml as [|dig ml IH]; intros digests Hr Hs; simpl.
  - by apply Tracks_nil.
  - pose proof (Tracks_decrement rt dig digests Hr Hs) as H1.
    apply (Tracks_app [Declared rt dig] _ _ _ _ H1).
    apply IH; [apply H1 | by apply decrement_is_Some].
Qed.

Lemma Tracks_topSection rt ml digests :
  inRange digests →
  Tracks (Declared rt <$> ml) digests (topSection rt ml digests).
Proof.
  intros Hr. unfold topSection.
  pose proof (Tracks_ensure rt digests Hr) as H1.
  apply (Tracks_app [] _ _ _ _ H1).
  apply Tracks_decrements; [apply H1 | apply ensure_is_Some].
Qed.

Lemma inRange_empty : inRange ∅.
Proof. intros rt d. unfold count. rewrite lookup_empty. lia. Qed.

(** ** The goroutines and the loops of getUpdates *)

Section Loops.
Context (sch : Scheduler) (reg : Registry) (allArchs validArch : list string).

(** A goroutine fails exactly when its fetch does, with the same error,
    and else folds in what was fetched. *)
Lemma task_fetched repo arch tag digests :
  processArch (hd "" (Strings.Split repo slash)) allArchs validArch
    = (arch, true) →
  match task reg repo (Strings.Split repo slash) arch
             (negb (bool_decide (arch = ""))) tag digests,
        fetched reg allArchs validArch repo tag with
  | inl err, inl err' => err = err'
  | inr digests', inr obs => inRange digests → Tracks obs digests digests'
  | _, _ => False
  end.
Proof.
  intros E. unfold task, fetched. rewrite E.
  destruct (bool_decide (arch = "")); simpl.
  - destruct (ManifestList reg repo tag) as [err|ml]; [done|].
    apply Tracks_topSection.
  - destruct (ParseImage reg _) as [err|image]; [done|].
    destruct (ImageDigest reg image) as [err|dig]; [done|].
    apply Tracks_archSection.
Qed.

Lemma skipped_fetched repo arch tag :
  processArch (hd "" (Strings.Split repo slash)) allArchs validArch
    = (arch, false) →
  fetched reg allArchs validArch repo tag = inr [].
Proof. intros E. unfold fetched. by rewrite E. Qed.

Lemma goWait_inr repo arch order : ∀ digests digests',
  processArch (hd "" (Strings.Split repo slash)) allArchs validArch
    = (arch, true) →
  goWait (task reg repo (Strings.Split repo slash) arch
               (negb (bool_decide (arch = "")))) order digests
    = inr digests' →
  inRange digests →
  Tracks (flat_map (fetchObservations reg allArchs validArch repo) order)
         digests digests'.
Proof.
  induction order as [|tag order IH]; intros digests digests' E; simpl.
  - intros [= <-] Hr. by apply Tracks_nil.
  - pose proof (task_fetched repo arch tag digests E) as Ht.
    unfold fetchObservations.
    destruct (task reg repo _ arch _ tag digests) as [err|digests1];
      [done|].
    destruct (fetched reg allArchs validArch repo tag) as [err|obs];
      [done|].
    intros Hw Hr. specialize (Ht Hr).
    apply (Tracks_app obs _ _ _ _ Ht).
    apply IH; [done | done | apply Ht].
Qed.

Lemma goWait_inl repo arch order : ∀ digests err,
  processArch (hd "" (Strings.Split repo slash)) allArchs validArch
    = (arch, true) →
  goWait (task reg repo (Strings.Split repo slash) arch
               (negb (bool_decide (arch = "")))) order digests
    = inl err →
  ∃ tag, tag ∈ order ∧ fetched reg allArchs validArch repo tag = inl err.
Proof.
  induction order as [|tag order IH]; intros digests err E; simpl; [done|].
  pose proof (task_fetched repo arch tag digests E) as Ht.
  destruct (task reg repo _ arch _ tag digests) as [err1|digests1].
  - intros [= <-]. exists tag. split; [left|].
    destruct (fetched reg allArchs validArch repo tag); [by subst | done].
  - intros Hw. destruct (IH _ _ E Hw) as (tag' & Hin & Hf).
    exists tag'. split; [by right | done].
Qed.

Lemma goWait_fails repo arch order : ∀ digests tag err,
  processArch (hd "" (Strings.Split repo slash)) allArchs validArch
    = (arch, true) →
  tag ∈ order → fetched reg allArchs validArch repo tag = inl err →
  ∃ err', goWait (task reg repo (Strings.Split repo slash) arch
                       (negb (bool_decide (arch = "")))) order digests
          = inl err'.
Proof.
  induction order as [|tag' order IH]; intros digests tag err E Hin Hf;
    simpl; [by apply elem_of_nil in Hin|].
  pose proof (task_fetched repo arch tag' digests E) as Ht.
  destruct (task reg repo _ arch _ tag' digests) as [err1|digests1];
    [by exists err1|].
  apply elem_of_cons in Hin as [->|Hin].
  - by rewrite Hf in Ht.
  - by apply (IH digests1 tag err).
Qed.

Lemma skipped_observations repo arch order :
  processArch (hd "" (Strings.Split repo slash)) allArchs validArch
    = (arch, false) →
  flat_map (fetchObservations reg allArchs validArch repo) order = [].
Proof.
  intros E. induction order as [|tag order IH]; simpl; [done|].
  unfold fetchObservations at 1.
  by rewrite (skipped_fetched repo arch tag E), IH.
Qed.

Lemma reconcileLoop_inr entries : ∀ digests digests',
  reconcileLoop sch reg allArchs validArch entries digests = inr digests' →
  inRange digests →
  Tracks (flat_map (repoObservations sch reg allArchs validArch) entries)
         digests digests'.
Proof.
  induction entries as [|[repo tags] entries IH]; intros digests digests';
    simpl.
  - intros [= <-] Hr. by apply Tracks_nil.
  - unfold repoObservations at 1. simpl.
    destruct (processArch _ allArchs validArch) as [arch ok] eqn:E.
    destruct ok; simpl.
    + destruct (goWait _ (goTags sch repo tags) digests)
        as [err|digests1] eqn:Hw; [done|].
      intros Hl Hr.
      pose proof (goWait_inr repo arch _ _ _ E Hw Hr) as H1.
      apply (Tracks_app _ _ _ _ _ H1). apply IH; [done | apply H1].
    + intros Hl Hr. rewrite (skipped_observations repo arch _ E). simpl.
      by apply IH.
Qed.

Lemma reconcileLoop_inl entries : ∀ digests err,
  reconcileLoop sch reg allArchs validArch entries digests = inl err →
  ∃ repo tags tag,
    (repo, tags) ∈ entries ∧ tag ∈ goTags sch repo tags ∧
    fetched reg allArchs validArch repo tag = inl err.
Proof.
  induction entries as [|[repo tags] entries IH]; intros digests err;
    simpl; [done|].
  destruct (processArch _ allArchs validArch) as [arch ok] eqn:E.
  destruct ok; simpl.
  - destruct (goWait _ (goTags sch repo tags) digests)
      as [err1|digests1] eqn:Hw.
    + intros [= <-].
      destruct (goWait_inl repo arch _ _ _ E Hw) as (tag & Hin & Hf).
      exists repo, tags, tag. split; [left | done].
    + intros Hl. destruct (IH _ _ Hl) as (r & ts & t & Hin & Ht & Hf).
      exists r, ts, t. split; [by right | done].
  - intros Hl. destruct (IH _ _ Hl) as (r & ts & t & Hin & Ht & Hf).
    exists r, ts, t. split; [by right | done].
Qed.

Lemma reconcileLoop_fails entries : ∀ digests repo tags tag err,
  (repo, tags) ∈ entries → tag ∈ goTags sch repo tags →
  fetched reg allArchs validArch repo tag = inl err →
  ∃ err', reconcileLoop sch reg allArchs validArch entries digests
          = inl err'.
Proof.
  induction entries as [|[repo' tags'] entries IH];
    intros digests repo tags tag err Hin Ht Hf; simpl;
    [by apply elem_of_nil in Hin|].
  destruct (processArch _ allArchs validArch) as [arch ok] eqn:E.
  apply elem_of_cons in Hin as [[= <- <-]|Hin].
  - destruct ok; simpl.
    + destruct (goWait_fails repo arch _ digests tag err E Ht Hf)
        as [err' ->].
      by exists err'.
    + by rewrite (skipped_fetched repo arch tag E) in Hf.
  - destruct ok; simpl; [|by apply (IH digests repo tags tag err)].
    destruct (goWait _ (goTags sch repo' tags') digests)
      as [err1|digests1]; [by exists err1|].
    by apply (IH digests1 repo tags tag err).
Qed.
End Loops.

(** ** The balance after reconciliation *)

Lemma count_empty rt d : count ∅ rt d = 0.
Proof. unfold count. by rewrite lookup_empty. Qed.

Lemma archsOf_empty rt : archsOf ∅ rt = [].
Proof. unfold archsOf. by rewrite lookup_empty. Qed.

Lemma reconcile_Tracks sch reg repoTags allArchs validArch digests :
  reconcile sch reg repoTags allArchs validArch = inr digests →
  Tracks (observations sch reg repoTags allArchs validArch) ∅ digests.
Proof.
  intros H. apply (reconcileLoop_inr sch reg allArchs validArch _ _ _ H).
  apply inRange_empty.
Qed.

Lemma reconcile_count sch reg repoTags allArchs validArch digests rt d :
  reconcile sch reg repoTags allArchs validArch = inr digests →
  count digests rt d =
  wrap64 (produced (observations sch reg repoTags allArchs validArch) rt d
          - declared (observations sch reg repoTags allArchs validArch) rt d).
Proof.
  intros (_ & Hc & _)%reconcile_Tracks.
  by rewrite Hc, count_empty, Z.add_0_l.
Qed.

Lemma reconcile_archs sch reg repoTags allArchs validArch digests rt :
  reconcile sch reg repoTags allArchs validArch = inr digests →
  archsOf digests rt =
  contributors (observations sch reg repoTags allArchs validArch) rt.
Proof.
  intros (_ & _ & Ha)%reconcile_Tracks. by rewrite Ha, archsOf_empty.
Qed.

(** With fewer than 2^63 observations no counter wraps around. *)
Lemma net_in_range obs rt d :
  Z.of_nat (length obs) < 2 ^ 63 →
  wrap64 (produced obs rt d - declared obs rt d)
  = produced obs rt d - declared obs rt d.
Proof.
  intros Hlen. apply wrap64_id. unfold produced, declared.
  pose proof (tally_bounds (isProduced rt d) obs).
  pose proof (tally_bounds (isDeclared rt d) obs). lia.
Qed.

(** C1: when reconciliation ends without error, the count stored for a
    digest in the balance of a RepoTag is the number of architecture
    images seen with that digest minus the number of manifest-list entries
    that declare it, as a Go [int]; it is that difference itself in every
    run of fewer than 2^63 observations. *)
Theorem reconcile_balance sch reg repoTags allArchs validArch digests :
  reconcile sch reg repoTags allArchs validArch = inr digests →
  ∀ rt d,
    count digests rt d =
    wrap64 (produced (observations sch reg repoTags allArchs validArch) rt d
            - declared (observations sch reg repoTags allArchs validArch) rt d)
    ∧
    (Z.of_nat (length (observations sch reg repoTags allArchs validArch))
       < 2 ^ 63 →
     count digests rt d =
     produced (observations sch reg repoTags allArchs validArch) rt d
     - declared (observations sch reg repoTags allArchs validArch) rt d).
Proof.
  intros H rt d. split.
  - by apply reconcile_count.
  - intros Hlen. rewrite (reconcile_count _ _ _ _ _ _ _ _ H).
    by apply net_in_range.
Qed.

(** ** The update records *)

Lemma needsUpdate_spec counters :
  needsUpdate counters = true ↔ ∃ d n, (d, n) ∈ counters ∧ n ≠ 0.
Proof.
  induction counters as [|[d n] counters IH]; simpl.
  - split; [done|]. by intros (d & n & ?%elem_of_nil & _).
  - case_bool_decide as E.
    + split; [|done]. intros _. exists d, n. split; [left | done].
    + rewrite IH. split.
      * intros (d' & n' & Hin & Hn). exists d', n'. split; [by right | done].
      * intros (d' & n' & Hin & Hn). exists d', n'. split; [|done].
        apply elem_of_cons in Hin as [[= -> ->]|Hin]; [|done].
        congruence.
Qed.

Lemma needsUpdate_digs sch rt (digs : gmap string Z) :
  needsUpdate (rangeDigs sch rt digs) = true ↔ ∃ d, at0 digs d ≠ 0.
Proof.
  rewrite needsUpdate_spec. unfold at0. split.
  - intros (d & n & Hin & Hn). exists d.
    rewrite (rangeDigs_perm sch rt digs) in Hin.
    apply elem_of_map_to_list in Hin. by rewrite Hin.
  - intros (d & Hd). destruct (digs !! d) as [n|] eqn:E; [|done].
    exists d, n. split; [|done].
    rewrite (rangeDigs_perm sch rt digs). by apply elem_of_map_to_list.
Qed.

Lemma elem_of_collectUpdates sch entries u :
  u ∈ collectUpdates sch entries ↔
  ∃ info, (repoTag u, info) ∈ entries ∧
          archs u = containerInfo.archs info ∧
          needsUpdate (rangeDigs sch (repoTag u) (containerInfo.digs info))
            = true.
Proof.
  induction entries as [|[rt info] entries IH]; simpl.
  - split; [by intros ?%elem_of_nil|]. by intros (? & ?%elem_of_nil & _).
  - destruct (needsUpdate (rangeDigs sch rt (containerInfo.digs info))) eqn:E.
    + rewrite elem_of_cons, IH. split.
      * intros [->|(info' & Hin & Ha & Hn)].
        -- exists info. simpl. split; [left | done].
        -- exists info'. split; [by right | done].
      * intros (info' & Hin & Ha & Hn).
        apply elem_of_cons in Hin as [[= <- <-]|Hin].
        -- left. destruct u; simpl in *. by subst.
        -- right. by exists info'.
    + rewrite IH. split.
      * intros (info' & Hin & Ha & Hn). exists info'. split; [by right | done].
      * intros (info' & Hin & Ha & Hn). exists info'. split; [|done].
        apply elem_of_cons in Hin as [[= <- <-]|Hin]; [|done].
        by rewrite E in Hn.
Qed.

Lemma collectUpdates_sublist sch entries :
  repoTag <$> collectUpdates sch entries `sublist_of` entries.*1.
Proof.
  induction entries as [|[rt info] entries IH]; simpl; [done|].
  destruct (needsUpdate _); simpl; by constructor.
Qed.

Lemma collectUpdates_spec sch (digests : gmap string containerInfo.t) u :
  u ∈ collectUpdates sch (rangeDigests sch digests) ↔
  archs u = archsOf digests (repoTag u) ∧
  ∃ d, count digests (repoTag u) d ≠ 0.
Proof.
  rewrite elem_of_collectUpdates. unfold archsOf, count. split.
  - intros (info & Hin & Ha & Hn).
    rewrite (rangeDigests_perm sch digests) in Hin.
    apply elem_of_map_to_list in Hin. rewrite Hin.
    split; [done|]. by apply (needsUpdate_digs sch (repoTag u)).
  - intros (Ha & d & Hd).
    destruct (digests !! repoTag u) as [info|] eqn:E; [|done].
    exists info. split; [|split; [done|]].
    + rewrite (rangeDigests_perm sch digests). by apply elem_of_map_to_list.
    + apply needsUpdate_digs. by exists d.
Qed.

Lemma collectUpdates_NoDup sch (digests : gmap string containerInfo.t) :
  NoDup (repoTag <$> collectUpdates sch (rangeDigests sch digests)).
Proof.
  eapply sublist_NoDup; [|apply collectUpdates_sublist].
  rewrite (rangeDigests_perm sch digests). apply NoDup_fst_map_to_list.
Qed.

Lemma getUpdates_inr sch reg repoTags allArchs validArch digests :
  reconcile sch reg repoTags allArchs validArch = inr digests →
  getUpdates sch reg repoTags allArchs validArch
  = (collectUpdates sch (rangeDigests sch digests), None).
Proof. intros H. unfold getUpdates. by rewrite H. Qed.

Lemma getUpdates_inl sch reg repoTags allArchs validArch err :
  reconcile sch reg repoTags allArchs validArch = inl err →
  getUpdates sch reg repoTags allArchs validArch = ([], Some err).
Proof. intros H. unfold getUpdates. by rewrite H. Qed.

(** C2: the records returned name exactly the RepoTags whose balance
    holds a count that is not zero, each once and with the architectures
    stored for it; when every digest is declared for a RepoTag as often as
    it is produced for it, no record is returned. *)
Theorem getUpdates_records sch reg repoTags allArchs validArch :
  (∀ digests,
      reconcile sch reg repoTags allArchs validArch = inr digests →
      (∀ rt, rt ∈ repoTag <$> (getUpdates sch reg repoTags allArchs validArch).1
             ↔ ∃ d, count digests rt d ≠ 0) ∧
      (∀ u, u ∈ (getUpdates sch reg repoTags allArchs validArch).1 →
            archs u = archsOf digests (repoTag u)) ∧
      NoDup (repoTag <$> (getUpdates sch reg repoTags allArchs validArch).1)) ∧
  ((∀ rt d,
       produced (observations sch reg repoTags allArchs validArch) rt d
       = declared (observations sch reg repoTags allArchs validArch) rt d) →
   (getUpdates sch reg repoTags allArchs validArch).1 = []).
Proof.
  split.
  - intros digests H. rewrite (getUpdates_inr _ _ _ _ _ _ H). simpl.
    split; [|split].
    + intros rt. rewrite list_elem_of_fmap. split.
      * intros (u & -> & Hu). by apply collectUpdates_spec in Hu as [_ ?].
      * intros Hd.
        exists {| repoTag := rt; archs := archsOf digests rt |}.
        split; [done|]. by apply collectUpdates_spec.
    + intros u Hu. by apply collectUpdates_spec in Hu as [? _].
    + apply collectUpdates_NoDup.
  - intros Heq.
    destruct (reconcile sch reg repoTags allArchs validArch)
      as [err|digests] eqn:H.
    + by rewrite (getUpdates_inl _ _ _ _ _ _ H).
    + rewrite (getUpdates_inr _ _ _ _ _ _ H). simpl.
      destruct (collectUpdates sch (rangeDigests sch digests))
        as [|u us] eqn:E; [done|].
      assert (u ∈ collectUpdates sch (rangeDigests sch digests)) as Hu
        by (rewrite E; left).
      apply collectUpdates_spec in Hu as (_ & d & Hd).
      rewrite (reconcile_count _ _ _ _ _ _ _ _ H), Heq, Z.sub_diag in Hd.
      done.
Qed.

(** C3: when reconciliation ends without error, in a run of fewer than
    2^63 observations, a digest that is declared for a RepoTag and
    produced by no selected architecture image, or produced and never
    declared, has a count that is not zero, and the RepoTag is among the
    records returned. *)
Theorem getUpdates_reports_mismatch sch reg repoTags allArchs validArch
    digests rt d :
  reconcile sch reg repoTags allArchs validArch = inr digests →
  Z.of_nat (length (observations sch reg repoTags allArchs validArch))
    < 2 ^ 63 →
  (0 < declared (observations sch reg repoTags allArchs validArch) rt d ∧
   produced (observations sch reg repoTags allArchs validArch) rt d = 0)
  ∨ (0 < produced (observations sch reg repoTags allArchs validArch) rt d ∧
     declared (observations sch reg repoTags allArchs validArch) rt d = 0) →
  count digests rt d ≠ 0 ∧
  ∃ u, u ∈ (getUpdates sch reg repoTags allArchs validArch).1 ∧
       repoTag u = rt.
Proof.
  intros H Hlen Hcase.
  assert (count digests rt d ≠ 0) as Hc.
  { rewrite (reconcile_count _ _ _ _ _ _ _ _ H), net_in_range by done. lia. }
  split; [done|].
  exists {| repoTag := rt; archs := archsOf digests rt |}. split; [|done].
  rewrite (getUpdates_inr _ _ _ _ _ _ H). simpl.
  apply collectUpdates_spec. simpl. split; [done|]. by exists d.
Qed.

(** ** Errors of the fetches *)

Lemma elem_of_rangeRepoTags sch (repoTags : gmap string (list string))
    repo tags :
  (repo, tags) ∈ rangeRepoTags sch repoTags ↔ repoTags !! repo = Some tags.
Proof. by rewrite (rangeRepoTags_perm sch repoTags), elem_of_map_to_list. Qed.

Lemma elem_of_goTags sch repo (tags : list string) tag :
  tag ∈ goTags sch repo tags ↔ tag ∈ tags.
Proof. by rewrite (goTags_perm sch repo tags). Qed.

(** C7: when the fetch for a tag of a repository of [repoTags] fails,
    [getUpdates] returns an error, the one of a fetch that failed, and no
    record; and whenever it returns an error it returns no record. *)
Theorem getUpdates_fetch_error sch reg repoTags allArchs validArch :
  (∀ repo tags tag err,
      repoTags !! repo = Some tags → tag ∈ tags →
      fetched reg allArchs validArch repo tag = inl err →
      ∃ err',
        getUpdates sch reg repoTags allArchs validArch = ([], Some err') ∧
        ∃ repo' tags' tag',
          repoTags !! repo' = Some tags' ∧ tag' ∈ tags' ∧
          fetched reg allArchs validArch repo' tag' = inl err') ∧
  (∀ updates err,
      getUpdates sch reg repoTags allArchs validArch = (updates, Some err) →
      updates = []).
Proof.
  split.
  - intros repo tags tag err Hrepo Htag Hf.
    apply (elem_of_rangeRepoTags sch) in Hrepo.
    apply (elem_of_goTags sch repo) in Htag.
    destruct (reconcileLoop_fails sch reg allArchs validArch _ ∅
                _ _ _ _ Hrepo Htag Hf) as [err' H].
    exists err'. split; [by apply getUpdates_inl|].
    destruct (reconcileLoop_inl sch reg allArchs validArch _ _ _ H)
      as (repo' & tags' & tag' & Hin & Ht & Hf').
    exists repo', tags', tag'.
    by rewrite <-(elem_of_rangeRepoTags sch), <-(elem_of_goTags sch repo').
  - intros updates err. unfold getUpdates.
    destruct (reconcile sch reg repoTags allArchs validArch); by intros [= <- ?].
Qed.

(** ** The plan *)

Lemma addArchs_app domain rt archs : ∀ cCmd,
  addArchs domain rt cCmd archs = cCmd ++ (archPath domain rt <$> archs).
Proof.
  unfold addArchs.
  induction archs as [|a archs IH]; intros cCmd; simpl.
  - by rewrite app_nil_r.
  - by rewrite IH, <-app_assoc.
Qed.

Lemma pushOne_lines domain u :
  pushOne domain u = [createLine domain u; pushLine domain u].
Proof. unfold pushOne. by rewrite addArchs_app. Qed.

Lemma pushUpdates_fold domain us : ∀ out,
  fold_left (λ out u, out ++ pushOne domain u) us out
  = out ++ flat_map (λ u, [createLine domain u; pushLine domain u]) us.
Proof.
  induction us as [|u us IH]; intros out; simpl.
  - by rewrite app_nil_r.
  - by rewrite IH, pushOne_lines, <-app_assoc.
Qed.

(** C5: [pushUpdates] prints, for each record in turn, the line of the
    create command (the top-level path, then the path of each contributing
    architecture in the order of the record, repeats kept) and then the
    line of the push command with the top-level path alone: two lines a
    record, and nothing else; its result is a function of its two
    arguments and its error is always [nil]. *)
Theorem pushUpdates_plan updateInfo domain :
  pushUpdates updateInfo domain
  = (flat_map (λ u, [createLine domain u; pushLine domain u]) updateInfo,
     None) ∧
  length (pushUpdates updateInfo domain).1 = (2 * length updateInfo)%nat.
Proof.
  unfold pushUpdates. rewrite pushUpdates_fold. simpl. split; [done|].
  induction updateInfo as [|u us IH]; simpl; lia.
Qed.

(** C10: a record returned for a RepoTag for which no architecture image
    was seen has no architecture, and its create command is the top-level
    path with no architecture path after it. *)
Theorem update_without_images sch reg repoTags allArchs validArch u domain :
  u ∈ (getUpdates sch reg repoTags allArchs validArch).1 →
  (∀ d arch, Produced (repoTag u) d arch
             ∉ observations sch reg repoTags allArchs validArch) →
  archs u = [] ∧
  pushUpdates [u] domain
  = (["docker manifest create --insecure --amend "
        +:+ domain +:+ "/" +:+ repoTag u;
      "docker manifest push --insecure " +:+ domain +:+ "/" +:+ repoTag u],
     None).
Proof.
  intros Hu Hnone.
  assert (archs u = []) as Ha.
  { destruct (reconcile sch reg repoTags allArchs validArch)
      as [err|digests] eqn:H.
    - rewrite (getUpdates_inl _ _ _ _ _ _ H) in Hu. by apply elem_of_nil in Hu.
    - rewrite (getUpdates_inr _ _ _ _ _ _ H) in Hu. simpl in Hu.
      apply collectUpdates_spec in Hu as [-> _].
      rewrite (reconcile_archs _ _ _ _ _ _ _ H).
      by apply contributors_nil. }
  split; [done|].
  unfold pushUpdates. rewrite pushUpdates_fold. simpl.
  unfold createLine, pushLine. by rewrite Ha.
Qed.

(** ** getAllRepoTags *)

Lemma tagsTasks_first reg order : ∀ out m err,
  (fold_left (tagsTask reg) order (out, (m, Some err))).2.2 = Some err.
Proof.
  induction order as [|repo order IH]; intros out m err; simpl; [done|].
  destruct (Tags reg repo); apply IH.
Qed.

Lemma tagsTasks_error reg order : ∀ out m repo err,
  repo ∈ order → Tags reg repo = inl err →
  ∃ err', (fold_left (tagsTask reg) order (out, (m, None))).2.2 = Some err' ∧
          ∃ repo', repo' ∈ order ∧ Tags reg repo' = inl err'.
Proof.
  induction order as [|r order IH]; intros out m repo err Hin Hf; simpl;
    [by apply elem_of_nil in Hin|].
  destruct (Tags reg r) as [err1|tags] eqn:E.
  - exists err1. split; [apply tagsTasks_first|].
    exists r. split; [left | done].
  - apply elem_of_cons in Hin as [->|Hin]; [congruence|].
    destruct (IH out (<[r := tags]> m) repo err Hin Hf)
      as (err' & He & repo' & Hin' & Hf').
    exists err'. split; [done|]. exists repo'. split; [by right | done].
Qed.

Lemma tagsTasks_lookup reg order : ∀ out m first repo,
  (fold_left (tagsTask reg) order (out, (m, first))).2.1 !! repo =
  match Tags reg repo with
  | inr tags => if decide (repo ∈ order) then Some tags else m !! repo
  | inl _ => m !! repo
  end.
Proof.
  induction order as [|r order IH]; intros out m first repo.
  - simpl. by destruct (Tags reg repo).
  - cbn [fold_left tagsTask].
    destruct (Tags reg r) as [err1|tags1] eqn:E; rewrite IH.
    + destruct (Tags reg repo) as [err|tags] eqn:E'; [done|].
      destruct (decide (repo ∈ order)) as [Hin|Hn].
      * by rewrite decide_True by (by right).
      * rewrite decide_False; [done|].
        intros [->|?]%elem_of_cons; [congruence | done].
    + destruct (Tags reg repo) as [err|tags] eqn:E'.
      * rewrite lookup_insert_ne; [done|]. intros ->. congruence.
      * destruct (decide (repo ∈ order)) as [Hin|Hn].
        -- by rewrite decide_True by (by right).
        -- destruct (decide (r = repo)) as [->|Hne].
           ++ rewrite lookup_insert_eq, decide_True by left. congruence.
           ++ rewrite lookup_insert_ne by done.
              rewrite decide_False; [done|].
              by intros [->|?]%elem_of_cons.
Qed.

Lemma run_listing_error sch reg allArchs archs out m err :
  getAllRepoTags sch reg = (out, (m, Some err)) →
  run sch reg allArchs archs = (out, Some err).
Proof. intros H. unfold run. by rewrite H. Qed.

(** C8, amended: when the listing of the tags of a repository of the
    catalog fails, [getAllRepoTags] returns an error, the one of a listing
    that failed, and next to it the map with the tags of every repository
    whose listing succeeded; [run] drops that map and returns the error
    with nothing printed but what the listings printed. *)
Theorem getAllRepoTags_listing_error sch reg repos repo err :
  Catalog reg = inr repos →
  repo ∈ repos → Tags reg repo = inl err →
  ∃ err',
    (getAllRepoTags sch reg).2.2 = Some err' ∧
    (∃ repo', repo' ∈ repos ∧ Tags reg repo' = inl err') ∧
    (∀ r tags, (getAllRepoTags sch reg).2.1 !! r = Some tags
               ↔ r ∈ repos ∧ Tags reg r = inr tags) ∧
    ∀ allArchs archs,
      run sch reg allArchs archs = ((getAllRepoTags sch reg).1, Some err').
Proof.
  intros Hc Hin Hf.
  assert (repo ∈ goRepos sch repos) as Hin'
    by by rewrite (goRepos_perm sch repos).
  unfold getAllRepoTags at 1 2. rewrite Hc.
  destruct (tagsTasks_error reg _ [] ∅ repo err Hin' Hf)
    as (err' & He & repo' & Hr & Hf').
  exists err'. split; [done|]. split; [|split].
  - exists repo'. by rewrite <-(goRepos_perm sch repos).
  - intros r tags. rewrite tagsTasks_lookup, lookup_empty.
    destruct (Tags reg r) as [e|tags'] eqn:E.
    + split; [done | by intros [_ ?]].
    + destruct (decide (r ∈ goRepos sch repos)) as [Hr'|Hr'];
        rewrite (goRepos_perm sch repos) in Hr'.
      * split; [by intros [= ->] | by intros [_ [= ->]]].
      * split; [done | by intros [? _]].
  - intros allArchs archs. apply (run_listing_error _ _ _ _ _
      (getAllRepoTags sch reg).2.1).
    unfold getAllRepoTags. rewrite Hc.
    destruct (fold_left _ _ _) as [out [m first]]. simpl in *. by subst.
Qed.

(** C8 as stated fails: the listing of [private] fails and the tags of
    [rck], whose listing succeeded, are returned with the error. *)
Lemma getAllRepoTags_returns_partial :
  Tags Sample.regPrivate "private" = inl (OtherError "unauthorized") ∧
  (getAllRepoTags inOrder Sample.regPrivate).2.2
    = Some (OtherError "unauthorized") ∧
  (getAllRepoTags inOrder Sample.regPrivate).2.1 !! "rck" = Some ["latest"] ∧
  (getAllRepoTags inOrder Sample.regPrivate).2.1 ≠ ∅.
Proof.
  split; [done|]. split; [done|]. split; [by vm_compute|].
  intros H. apply (f_equal (λ m : gmap string (list string), m !! "rck")) in H.
  vm_compute in H. discriminate.
Qed.

(** ** The configuration read by main *)

(** With one positional argument both tests of emptiness are passed,
    whatever the flags: [strings.Split] never gives an empty slice. *)
Lemma main_one_argument sch pkg a all domain :
  main sch pkg a all [domain] =
  match getRegistry pkg "" "" domain with
  | inl err => ([], Fatal (errorText err))
  | inr reg =>
      match run sch reg
              (Strings.Split (default "amd64,s390x,ppc64le,arm64" all) comma)
              (Strings.Split (default "amd64,s390x" a) comma) with
      | (out, Some err) => (out, Fatal (errorText err))
      | (out, None) => (out, Returned)
      end
  end.
Proof.
  unfold main. cbn [length hd].
  rewrite bool_decide_eq_false_2 by (by intros ?).
  rewrite !bool_decide_eq_false_2; [done| |].
  - pose proof (Split_length (default "amd64,s390x" a) comma). lia.
  - pose proof (Split_length (default "amd64,s390x,ppc64le,arm64" all) comma).
    lia.
Qed.

(** C9: what [main] does on an empty list of architectures.  With [-a ""]
    or [-all ""] and a domain, [main] does not stop: it goes on to
    [getRegistry] and to [run] with the list [[""]]; on the sample registry
    it prints a plan and returns with exit status 0.  Without a positional
    argument it ends after the usage text, before [getRegistry]. *)
Theorem main_empty_list_goes_on :
  (∀ sch pkg all,
      main sch pkg (Some "") all ["registry.io"] =
      match getRegistry pkg "" "" "registry.io" with
      | inl err => ([], Fatal (errorText err))
      | inr reg =>
          match run sch reg
                  (Strings.Split (default "amd64,s390x,ppc64le,arm64" all)
                                 comma) [""] with
          | (out, Some err) => (out, Fatal (errorText err))
          | (out, None) => (out, Returned)
          end
      end) ∧
  (∀ sch pkg a,
      main sch pkg a (Some "") ["registry.io"] =
      match getRegistry pkg "" "" "registry.io" with
      | inl err => ([], Fatal (errorText err))
      | inr reg =>
          match run sch reg [""]
                  (Strings.Split (default "amd64,s390x" a) comma) with
          | (out, Some err) => (out, Fatal (errorText err))
          | (out, None) => (out, Returned)
          end
      end) ∧
  main inOrder Sample.pkg (Some "") None ["registry.io"] =
    ([Println
        "docker manifest create --insecure --amend registry.io/rck:latest";
      Println "docker manifest push --insecure registry.io/rck:latest"],
     Returned) ∧
  exitStatus
    (main inOrder Sample.pkg (Some "") None ["registry.io"]).2 = 0 ∧
  (∀ sch pkg a all, main sch pkg a all [] = ([], UsageExit)).
Proof.
  split; [|split; [|split; [|split]]].
  - intros sch pkg all. apply main_one_argument.
  - intros sch pkg a. apply main_one_argument.
  - by vm_compute.
  - by vm_compute.
  - done.
Qed.

(** ** The order of the observations *)

Lemma count_observe digests o rt d :
  count (observe digests o) rt d =
  if touches rt d o then wrap64 (count digests rt d + delta o)
  else count digests rt d.
Proof.
  destruct o as [rt' d' arch|rt' d']; unfold touches; simpl.
  - rewrite count_archSection, orb_false_r.
    destruct (decide (rt' = rt ∧ d' = d)) as [E|E].
    + by rewrite bool_decide_eq_true_2.
    + by rewrite bool_decide_eq_false_2.
  - unfold topSection. simpl.
    rewrite count_decrement by apply ensure_is_Some. rewrite count_ensure.
    destruct (decide (rt' = rt ∧ d' = d)) as [E|E].
    + by rewrite bool_decide_eq_true_2.
    + by rewrite bool_decide_eq_false_2.
Qed.

Lemma wrap64_swap c a b :
  wrap64 (wrap64 (c + a) + b) = wrap64 (wrap64 (c + b) + a).
Proof. rewrite !wrap64_add. f_equal. lia. Qed.

Lemma observe_sameCounts digests digests' o :
  sameCounts digests digests' →
  sameCounts (observe digests o) (observe digests' o).
Proof. intros H rt d. by rewrite !count_observe, H. Qed.

Lemma observe_swap digests digests' x y :
  sameCounts digests digests' →
  sameCounts (observe (observe digests x) y) (observe (observe digests' y) x).
Proof.
  intros H rt d. rewrite !count_observe, H.
  destruct (touches rt d x), (touches rt d y); try done.
  apply wrap64_swap.
Qed.

Lemma fold_observe_sameCounts obs : ∀ digests digests',
  sameCounts digests digests' →
  sameCounts (fold_left observe obs digests) (fold_left observe obs digests').
Proof.
  induction obs as [|o obs IH]; intros digests digests' H; simpl; [done|].
  by apply IH, observe_sameCounts.
Qed.

Lemma fold_observe_Permutation obs1 obs2 :
  obs1 ≡ₚ obs2 → ∀ digests digests',
  sameCounts digests digests' →
  sameCounts (fold_left observe obs1 digests)
             (fold_left observe obs2 digests').
Proof.
  induction 1 as [|o l l' _ IH|x y l|l l' l'' _ IH1 _ IH2];
    intros digests digests' H; simpl.
  - done.
  - by apply IH, observe_sameCounts.
  - by apply fold_observe_sameCounts, observe_swap.
  - intros rt d. rewrite (IH1 digests digests) by done. by apply IH2.
Qed.

Lemma Tracks_observe o digests :
  inRange digests → Tracks [o] digests (observe digests o).
Proof.
  intros Hr. destruct o as [rt d arch|rt d]; simpl.
  - by apply Tracks_archSection.
  - by apply (Tracks_topSection rt [d]).
Qed.

Lemma Tracks_observations obs : ∀ digests,
  inRange digests → Tracks obs digests (fold_left observe obs digests).
Proof.
  induction obs as [|o obs IH]; intros digests Hr; simpl.
  - by apply Tracks_nil.
  - pose proof (Tracks_observe o digests Hr) as H1.
    apply (Tracks_app [o] _ _ _ _ H1). apply IH, H1.
Qed.

(** ** The sum of the absolute values *)

Lemma sumAbs_insert (digs : gmap string Z) d n :
  digs !! d = None → sumAbs (<[d := n]> digs) = Z.abs n + sumAbs digs.
Proof.
  intros H. unfold sumAbs.
  rewrite map_fold_insert_L; [done| |done]. intros. lia.
Qed.

Lemma sumAbs_delete (digs : gmap string Z) d :
  sumAbs digs = Z.abs (at0 digs d) + sumAbs (delete d digs).
Proof.
  unfold at0. destruct (digs !! d) as [n|] eqn:E; simpl.
  - unfold sumAbs. rewrite (map_fold_delete_L _ _ d n digs); [done| |done].
    intros. lia.
  - by rewrite delete_id.
Qed.

Lemma sumAbs_ext (digs1 : gmap string Z) : ∀ digs2 : gmap string Z,
  (∀ d, at0 digs1 d = at0 digs2 d) → sumAbs digs1 = sumAbs digs2.
Proof.
  induction digs1 as [|d n digs1 Hd IH] using map_ind; intros digs2 H.
  - induction digs2 as [|d n digs2 Hd IH] using map_ind; [done|].
    rewrite sumAbs_insert by done.
    specialize (H d) as Hn. unfold at0 in Hn.
    rewrite lookup_empty, lookup_insert_eq in Hn. simpl in Hn. subst n.
    rewrite <-IH; [done|]. intros d'. rewrite (H d'). unfold at0.
    destruct (decide (d = d')) as [->|Hne].
    + by rewrite lookup_insert_eq, Hd.
    + by rewrite lookup_insert_ne.
  - rewrite sumAbs_insert by done. rewrite (sumAbs_delete digs2 d).
    rewrite <-(H d). unfold at0 at 1. rewrite lookup_insert_eq. simpl.
    f_equal. apply IH. intros d'. unfold at0.
    destruct (decide (d = d')) as [->|Hne].
    + by rewrite Hd, lookup_delete_eq.
    + rewrite lookup_delete_ne by done.
      specialize (H d'). unfold at0 in H.
      by rewrite lookup_insert_ne in H.
Qed.

Lemma at0_balance digests rt d : at0 (balance digests rt) d = count digests rt d.
Proof. unfold balance, count. by destruct (digests !! rt). Qed.

Lemma sameCounts_sumAbs digests digests' rt :
  sameCounts digests digests' →
  sumAbs (balance digests rt) = sumAbs (balance digests' rt).
Proof.
  intros H. apply sumAbs_ext. intros d. by rewrite !at0_balance.
Qed.

(** ** The observations under two schedulers *)

Lemma flat_map_Permutation_ext {A B} (f g : A → list B) l :
  (∀ x, f x ≡ₚ g x) → flat_map f l ≡ₚ flat_map g l.
Proof.
  intros H. induction l as [|x l IH]; simpl; [done|].
  by rewrite (H x), IH.
Qed.

Lemma repoObservations_Permutation sch1 sch2 reg allArchs validArch entry :
  repoObservations sch1 reg allArchs validArch entry
  ≡ₚ repoObservations sch2 reg allArchs validArch entry.
Proof.
  unfold repoObservations.
  by rewrite (goTags_perm sch1), (goTags_perm sch2).
Qed.

Lemma observations_Permutation sch1 sch2 reg repoTags allArchs validArch :
  observations sch1 reg repoTags allArchs validArch
  ≡ₚ observations sch2 reg repoTags allArchs validArch.
Proof.
  unfold observations.
  rewrite (rangeRepoTags_perm sch1), (rangeRepoTags_perm sch2).
  apply flat_map_Permutation_ext. intros entry.
  apply repoObservations_Permutation.
Qed.

(** C6: the balance does not depend on the order in which the
    observations are folded in.  Two arrangements of the same observations,
    folded into the same [digests], give the same count for every digest
    of every RepoTag and the same sum of absolute values; and so do two
    runs of the reconciliation under any two schedulers, whose counts are
    those of folding in the observations of the run one by one. *)
Theorem balance_order_independent :
  (∀ obs1 obs2 digests rt,
      obs1 ≡ₚ obs2 →
      (∀ d, count (fold_left observe obs1 digests) rt d
            = count (fold_left observe obs2 digests) rt d) ∧
      sumAbs (balance (fold_left observe obs1 digests) rt)
      = sumAbs (balance (fold_left observe obs2 digests) rt)) ∧
  (∀ sch1 sch2 reg repoTags allArchs validArch digests1 digests2 rt,
      reconcile sch1 reg repoTags allArchs validArch = inr digests1 →
      reconcile sch2 reg repoTags allArchs validArch = inr digests2 →
      (∀ d, count digests1 rt d = count digests2 rt d) ∧
      sumAbs (balance digests1 rt) = sumAbs (balance digests2 rt)) ∧
  (∀ sch reg repoTags allArchs validArch digests rt d,
      reconcile sch reg repoTags allArchs validArch = inr digests →
      count digests rt d
      = count (fold_left observe
                 (observations sch reg repoTags allArchs validArch) ∅) rt d).
Proof.
  split; [|split].
  - intros obs1 obs2 digests rt Hp.
    assert (sameCounts (fold_left observe obs1 digests)
                       (fold_left observe obs2 digests)) as H
      by by apply fold_observe_Permutation.
    split; [intros d; apply H | by apply sameCounts_sumAbs].
  - intros sch1 sch2 reg repoTags allArchs validArch digests1 digests2 rt
      H1 H2.
    assert (sameCounts digests1 digests2) as H.
    { intros rt' d.
      rewrite (reconcile_count _ _ _ _ _ _ _ _ H1),
        (reconcile_count _ _ _ _ _ _ _ _ H2).
      unfold produced, declared.
      by rewrite !(tally_Permutation _ _ _
        (observations_Permutation sch1 sch2 reg repoTags allArchs validArch)). }
    split; [intros d; apply H | by apply sameCounts_sumAbs].
  - intros sch reg repoTags allArchs validArch digests rt d H.
    destruct (reconcile_Tracks _ _ _ _ _ _ H) as (_ & Hc & _).
    destruct (Tracks_observations
                (observations sch reg repoTags allArchs validArch) ∅
                inRange_empty) as (_ & Hc' & _).
    by rewrite Hc, Hc'.
Qed.

(** * The theorems on the sample registry *)

Lemma sample_reconcile :
  reconcile inOrder Sample.reg Sample.repoTags Sample.allArchs Sample.archs
  = inr Sample.digests.
Proof. vm_compute. reflexivity. Defined.

Lemma sample_reconcile_reversed :
  reconcile Sample.reversed Sample.reg Sample.repoTags Sample.allArchs
            Sample.archs
  = inr Sample.digestsReversed.
Proof. vm_compute. reflexivity. Defined.

Lemma sample_observations :
  observations inOrder Sample.reg Sample.repoTags Sample.allArchs Sample.archs
  = [Produced "rck:latest" "sha256:BBB" "s390x";
     Produced "rck:latest" "sha256:AAA" "amd64";
     Declared "rck:latest" "sha256:AAA"].
Proof. vm_compute. reflexivity. Defined.

(** The classifier on the three examples of the specification. *)
Lemma processArch_classifies_witness :
  (("myimage" ∉ ["amd64"; "arm64"]) ∧
   processArch "myimage" ["amd64"; "arm64"] ["amd64"] = ("", true)) ∧
  (("arm64" ∈ ["amd64"; "arm64"]) ∧ ("arm64" ∉ ["amd64"]) ∧
   processArch "arm64" ["amd64"; "arm64"] ["amd64"] = ("arm64", false)) ∧
  (("amd64" ∈ ["amd64"; "arm64"]) ∧ ("amd64" ∈ ["amd64"; "arm64"]) ∧
   processArch "amd64" ["amd64"; "arm64"] ["amd64"; "arm64"]
   = ("amd64", true)).
Proof.
  destruct processArch_classifies as [H _].
  assert ("myimage" ∉ ["amd64"; "arm64"]) as H1
    by (by apply (bool_decide_unpack _)).
  assert ("arm64" ∈ ["amd64"; "arm64"]) as H2
    by (by apply (bool_decide_unpack _)).
  assert ("arm64" ∉ ["amd64"]) as H3 by (by apply (bool_decide_unpack _)).
  assert ("amd64" ∈ ["amd64"; "arm64"]) as H4
    by (by apply (bool_decide_unpack _)).
  split; [|split].
  - split; [done|].
    by apply (proj1 (H "myimage" ["amd64"; "arm64"] ["amd64"])).
  - split; [done|]. split; [done|].
    by apply (proj1 (proj2 (H "arm64" ["amd64"; "arm64"] ["amd64"]))).
  - split; [done|]. split; [done|].
    by apply (proj2 (proj2 (H "amd64" ["amd64"; "arm64"] ["amd64"; "arm64"]))).
Defined.

(** The balance of [rck:latest] in the sample: +1 for the digest of the
    s390x image, which the manifest list does not declare. *)
Lemma reconcile_balance_witness :
  reconcile inOrder Sample.reg Sample.repoTags Sample.allArchs Sample.archs
    = inr Sample.digests ∧
  Z.of_nat (length (observations inOrder Sample.reg Sample.repoTags
                      Sample.allArchs Sample.archs)) < 2 ^ 63 ∧
  count Sample.digests "rck:latest" "sha256:BBB"
  = produced (observations inOrder Sample.reg Sample.repoTags
                Sample.allArchs Sample.archs) "rck:latest" "sha256:BBB"
    - declared (observations inOrder Sample.reg Sample.repoTags
                  Sample.allArchs Sample.archs) "rck:latest" "sha256:BBB".
Proof.
  split; [exact sample_reconcile|].
  assert (Z.of_nat (length (observations inOrder Sample.reg Sample.repoTags
                              Sample.allArchs Sample.archs)) < 2 ^ 63) as Hlen
    by (vm_compute; reflexivity).
  split; [exact Hlen|].
  exact (proj2 (reconcile_balance _ _ _ _ _ _ sample_reconcile
                  "rck:latest" "sha256:BBB") Hlen).
Defined.

(** The sample yields the record of [rck:latest]; with s390x left out of
    the run every digest is declared as often as produced and no record
    is returned. *)
Lemma getUpdates_records_witness :
  reconcile inOrder Sample.reg Sample.repoTags Sample.allArchs Sample.archs
    = inr Sample.digests ∧
  "rck:latest" ∈ repoTag <$> (getUpdates inOrder Sample.reg Sample.repoTags
                                Sample.allArchs Sample.archs).1 ∧
  (∀ rt d,
      produced (observations inOrder Sample.reg Sample.repoTags
                  Sample.allArchs ["amd64"]) rt d
      = declared (observations inOrder Sample.reg Sample.repoTags
                    Sample.allArchs ["amd64"]) rt d) ∧
  (getUpdates inOrder Sample.reg Sample.repoTags Sample.allArchs ["amd64"]).1
  = [].
Proof.
  split; [exact sample_reconcile|]. split.
  - destruct (getUpdates_records inOrder Sample.reg Sample.repoTags
                Sample.allArchs Sample.archs) as [H _].
    destruct (H _ sample_reconcile) as (Hiff & _).
    apply Hiff. exists "sha256:BBB". by vm_compute.
  - assert (∀ rt d,
      produced (observations inOrder Sample.reg Sample.repoTags
                  Sample.allArchs ["amd64"]) rt d
      = declared (observations inOrder Sample.reg Sample.repoTags
                    Sample.allArchs ["amd64"]) rt d) as Heq.
    { intros rt d.
      change (observations inOrder Sample.reg Sample.repoTags
                Sample.allArchs ["amd64"])
        with ([Produced "rck:latest" "sha256:AAA" "amd64";
               Declared "rck:latest" "sha256:AAA"]).
      unfold produced, declared. simpl.
      by destruct (bool_decide _). }
    split; [exact Heq|].
    exact (proj2 (getUpdates_records inOrder Sample.reg Sample.repoTags
                    Sample.allArchs ["amd64"]) Heq).
Defined.

(** The digest of the s390x image is produced and not declared: the
    record of [rck:latest] is returned. *)
Lemma getUpdates_reports_mismatch_witness :
  reconcile inOrder Sample.reg Sample.repoTags Sample.allArchs Sample.archs
    = inr Sample.digests ∧
  count Sample.digests "rck:latest" "sha256:BBB" ≠ 0 ∧
  ∃ u, u ∈ (getUpdates inOrder Sample.reg Sample.repoTags Sample.allArchs
              Sample.archs).1 ∧ repoTag u = "rck:latest".
Proof.
  split; [exact sample_reconcile|].
  apply (getUpdates_reports_mismatch inOrder Sample.reg Sample.repoTags
           Sample.allArchs Sample.archs Sample.digests
           "rck:latest" "sha256:BBB" sample_reconcile).
  - vm_compute. reflexivity.
  - right. split; vm_compute; reflexivity.
Defined.

(** The sample under two schedulers, and its observations in two orders. *)
Lemma balance_order_independent_witness :
  ([Produced "rck:latest" "sha256:AAA" "amd64";
    Declared "rck:latest" "sha256:AAA"]
   ≡ₚ [Declared "rck:latest" "sha256:AAA";
       Produced "rck:latest" "sha256:AAA" "amd64"]) ∧
  sumAbs (balance (fold_left observe
                     [Produced "rck:latest" "sha256:AAA" "amd64";
                      Declared "rck:latest" "sha256:AAA"] ∅) "rck:latest")
  = sumAbs (balance (fold_left observe
                       [Declared "rck:latest" "sha256:AAA";
                        Produced "rck:latest" "sha256:AAA" "amd64"] ∅)
              "rck:latest") ∧
  reconcile inOrder Sample.reg Sample.repoTags Sample.allArchs Sample.archs
    = inr Sample.digests ∧
  reconcile Sample.reversed Sample.reg Sample.repoTags Sample.allArchs
            Sample.archs
    = inr Sample.digestsReversed ∧
  (∀ d, count Sample.digests "rck:latest" d
        = count Sample.digestsReversed "rck:latest" d) ∧
  count Sample.digests "rck:latest" "sha256:BBB"
  = count (fold_left observe
             (observations inOrder Sample.reg Sample.repoTags
                Sample.allArchs Sample.archs) ∅) "rck:latest" "sha256:BBB".
Proof.
  destruct balance_order_independent as (Ha & Hb & Hc).
  assert ([Produced "rck:latest" "sha256:AAA" "amd64";
           Declared "rck:latest" "sha256:AAA"]
          ≡ₚ [Declared "rck:latest" "sha256:AAA";
              Produced "rck:latest" "sha256:AAA" "amd64"]) as Hp
    by apply perm_swap.
  split; [exact Hp|].
  split; [exact (proj2 (Ha _ _ ∅ "rck:latest" Hp))|].
  split; [exact sample_reconcile|].
  split; [exact sample_reconcile_reversed|].
  split.
  - exact (proj1 (Hb _ _ _ _ _ _ _ _ "rck:latest"
                    sample_reconcile sample_reconcile_reversed)).
  - exact (Hc _ _ _ _ _ _ "rck:latest" "sha256:BBB" sample_reconcile).
Defined.

(** The tag [old] of [rck] has no manifest list: its fetch fails and
    [getUpdates] returns the error and no record. *)
Lemma getUpdates_fetch_error_witness :
  Sample.withStale !! "rck" = Some ["latest"; "old"] ∧
  ("old" ∈ ["latest"; "old"]) ∧
  fetched Sample.reg Sample.allArchs Sample.archs "rck" "old"
    = inl (OtherError "manifest unknown") ∧
  (∃ err',
      getUpdates inOrder Sample.reg Sample.withStale Sample.allArchs
                 Sample.archs = ([], Some err') ∧
      ∃ repo' tags' tag',
        Sample.withStale !! repo' = Some tags' ∧ tag' ∈ tags' ∧
        fetched Sample.reg Sample.allArchs Sample.archs repo' tag'
          = inl err') ∧
  (getUpdates inOrder Sample.reg Sample.withStale Sample.allArchs
              Sample.archs = ([], Some (OtherError "manifest unknown")) ∧
   @nil updateInfo = []).
Proof.
  destruct (getUpdates_fetch_error inOrder Sample.reg Sample.withStale
              Sample.allArchs Sample.archs) as [H1 H2].
  assert (Sample.withStale !! "rck" = Some ["latest"; "old"]) as Hr
    by (vm_compute; reflexivity).
  assert ("old" ∈ ["latest"; "old"]) as Ht
    by (by apply (bool_decide_unpack _)).
  assert (fetched Sample.reg Sample.allArchs Sample.archs "rck" "old"
          = inl (OtherError "manifest unknown")) as Hf
    by (vm_compute; reflexivity).
  assert (getUpdates inOrder Sample.reg Sample.withStale Sample.allArchs
            Sample.archs = ([], Some (OtherError "manifest unknown"))) as Hg
    by (vm_compute; reflexivity).
  split; [exact Hr|]. split; [exact Ht|]. split; [exact Hf|].
  split; [exact (H1 _ _ _ _ Hr Ht Hf)|].
  split; [exact Hg | exact (H2 _ _ Hg)].
Defined.

(** The listing of [private] fails: [getAllRepoTags] returns the error
    and [run] returns it too. *)
Lemma getAllRepoTags_listing_error_witness :
  Catalog Sample.regPrivate = inr ["rck"; "private"] ∧
  ("private" ∈ ["rck"; "private"]) ∧
  Tags Sample.regPrivate "private" = inl (OtherError "unauthorized") ∧
  ∃ err',
    (getAllRepoTags inOrder Sample.regPrivate).2.2 = Some err' ∧
    (∃ repo', repo' ∈ ["rck"; "private"] ∧
              Tags Sample.regPrivate repo' = inl err') ∧
    (∀ r tags, (getAllRepoTags inOrder Sample.regPrivate).2.1 !! r = Some tags
               ↔ r ∈ ["rck"; "private"] ∧
                 Tags Sample.regPrivate r = inr tags) ∧
    ∀ allArchs archs,
      run inOrder Sample.regPrivate allArchs archs
      = ((getAllRepoTags inOrder Sample.regPrivate).1, Some err').
Proof.
  assert (Catalog Sample.regPrivate = inr ["rck"; "private"]) as Hc
    by reflexivity.
  assert ("private" ∈ ["rck"; "private"]) as Hin
    by (by apply (bool_decide_unpack _)).
  assert (Tags Sample.regPrivate "private" = inl (OtherError "unauthorized"))
    as Hf by reflexivity.
  split; [exact Hc|]. split; [exact Hin|]. split; [exact Hf|].
  exact (getAllRepoTags_listing_error inOrder Sample.regPrivate
           ["rck"; "private"] "private" (OtherError "unauthorized")
           Hc Hin Hf).
Defined.

(** The top-level repository alone: the record of [rck:latest] has no
    architecture and its create command names the top-level path only. *)
Lemma update_without_images_witness :
  ({| repoTag := "rck:latest"; archs := [] |}
   ∈ (getUpdates inOrder Sample.reg Sample.topOnly Sample.allArchs
        Sample.archs).1) ∧
  (∀ d arch, Produced "rck:latest" d arch
             ∉ observations inOrder Sample.reg Sample.topOnly Sample.allArchs
                 Sample.archs) ∧
  pushUpdates [{| repoTag := "rck:latest"; archs := [] |}] "registry.io"
  = (["docker manifest create --insecure --amend registry.io/rck:latest";
      "docker manifest push --insecure registry.io/rck:latest"], None).
Proof.
  assert ({| repoTag := "rck:latest"; archs := [] |}
          ∈ (getUpdates inOrder Sample.reg Sample.topOnly Sample.allArchs
               Sample.archs).1) as Hu.
  { change ((getUpdates inOrder Sample.reg Sample.topOnly Sample.allArchs
               Sample.archs).1)
      with [{| repoTag := "rck:latest"; archs := [] |}].
    apply list_elem_of_here. }
  assert (∀ d arch, Produced "rck:latest" d arch
                    ∉ observations inOrder Sample.reg Sample.topOnly
                        Sample.allArchs Sample.archs) as Hn.
  { intros d arch.
    change (observations inOrder Sample.reg Sample.topOnly Sample.allArchs
              Sample.archs)
      with [Declared "rck:latest" "sha256:AAA"].
    intros Hin. apply list_elem_of_singleton in Hin. discriminate Hin. }
  split; [exact Hu|]. split; [exact Hn|].
  exact (proj2 (update_without_images inOrder Sample.reg Sample.topOnly
                  Sample.allArchs Sample.archs
                  {| repoTag := "rck:latest"; archs := [] |} "registry.io"
                  Hu Hn)).
Defined.

(** * More on the code *)

(** ** strings.Split and strings.Join undo each other *)

Lemma Join_cons e es sep :
  es ≠ [] → Strings.Join (e :: es) sep = e +:+ sep +:+ Strings.Join es sep.
Proof. by destruct es. Qed.

Lemma Join_Split s sep :
  Strings.Join (Strings.Split s sep) (String sep "") = s.
Proof.
  induction s as [|c s IH]; [done|]. cbn [Strings.Split].
  destruct (Ascii.eqb c sep) eqn:E.
  - apply Ascii.eqb_eq in E as ->.
    rewrite Join_cons by apply Split_nonempty. simpl. by rewrite IH.
  - destruct (Strings.Split s sep) as [|w ws] eqn:Hs.
    { by destruct (Split_nonempty s sep). }
    destruct ws as [|w' ws]; simpl in *; by rewrite <-IH.
Qed.

Lemma Split_no_sep s sep : hasByte sep s = false → Strings.Split s sep = [s].
Proof.
  induction s as [|c s IH]; [done|]. simpl.
  intros [E H]%orb_false_elim. by rewrite E, IH.
Qed.

Lemma Split_app_sep w rest sep :
  hasByte sep w = false →
  Strings.Split (w +:+ String sep rest) sep = w :: Strings.Split rest sep.
Proof.
  induction w as [|c w IH]; simpl.
  - intros _. by rewrite Ascii.eqb_refl.
  - intros [E H]%orb_false_elim. by rewrite E, IH.
Qed.

Lemma Split_Join elems sep :
  elems ≠ [] → Forall (λ w, hasByte sep w = false) elems →
  Strings.Split (Strings.Join elems (String sep "")) sep = elems.
Proof.
  induction elems as [|e es IH]; [done|]. intros _ H.
  apply Forall_cons in H as [He Hes].
  destruct es as [|e' es].
  - by apply Split_no_sep.
  - rewrite Join_cons by done.
    change (String sep "" +:+ Strings.Join (e' :: es) (String sep ""))
      with (String sep (Strings.Join (e' :: es) (String sep ""))).
    rewrite Split_app_sep by done. f_equal. by apply IH.
Qed.

Lemma hasByte_app c s1 s2 :
  hasByte c (s1 +:+ s2) = hasByte c s1 || hasByte c s2.
Proof. induction s1 as [|c' s1 IH]; simpl; [done|]. by rewrite IH, orb_assoc. Qed.

(** ** The RepoTag of an architecture image *)

(** X1: the goroutine of the image [arch/name:tag] counts its digest under
    the RepoTag [name:tag], whatever slashes [name] has, and appends
    [arch]; for a repository that is the bare name of an architecture the
    RepoTag is [:tag]. *)
Theorem task_strips_architecture reg arch tag image dig digests :
  hasByte slash arch = false →
  (∀ name,
      ParseImage reg (Domain reg +:+ "/" +:+ (arch +:+ "/" +:+ name)
                        +:+ ":" +:+ tag) = inr image →
      ImageDigest reg image = inr dig →
      task reg (arch +:+ "/" +:+ name)
           (Strings.Split (arch +:+ "/" +:+ name) slash) arch true tag digests
      = inr (archSection (name +:+ ":" +:+ tag) dig arch digests)) ∧
  (ParseImage reg (Domain reg +:+ "/" +:+ arch +:+ ":" +:+ tag) = inr image →
   ImageDigest reg image = inr dig →
   task reg arch (Strings.Split arch slash) arch true tag digests
   = inr (archSection (":" +:+ tag) dig arch digests)).
Proof.
  intros Harch. split.
  - intros name Hp Hd. unfold task. rewrite Hp, Hd.
    change (arch +:+ "/" +:+ name) with (arch +:+ String slash name).
    rewrite Split_app_sep by done. cbn [tail].
    change "/" with (String slash ""). by rewrite Join_Split.
  - intros Hp Hd. unfold task. rewrite Hp, Hd.
    by rewrite Split_no_sep by done.
Qed.

(** ** The words of the plan *)

Lemma topLevelPath_no_space domain rt :
  hasByte space domain = false → hasByte space rt = false →
  hasByte space (topLevelPath domain rt) = false.
Proof.
  intros Hd Hr. unfold topLevelPath. by rewrite !hasByte_app, Hd, Hr.
Qed.

Lemma archPath_no_space domain rt a :
  hasByte space domain = false → hasByte space rt = false →
  hasByte space a = false →
  hasByte space (archPath domain rt a) = false.
Proof.
  intros Hd Hr Ha. unfold archPath. by rewrite !hasByte_app, Hd, Hr, Ha.
Qed.

(** X2: when neither the domain nor the RepoTags nor the architectures
    hold a space, cutting the lines of the plan at the spaces gives back
    the commands word by word: [createCmd], the top-level path and one
    path for each architecture, then [pushCmd] and the top-level path. *)
Theorem pushUpdates_words updateInfo domain :
  hasByte space domain = false →
  Forall (λ u, hasByte space (repoTag u) = false ∧
               Forall (λ a, hasByte space a = false) (archs u)) updateInfo →
  (λ line, Strings.Split line space) <$> (pushUpdates updateInfo domain).1
  = flat_map (λ u, [createCmd ++ [topLevelPath domain (repoTag u)]
                      ++ (archPath domain (repoTag u) <$> archs u);
                    pushCmd ++ [topLevelPath domain (repoTag u)]])
             updateInfo.
Proof.
  intros Hd Hus. unfold pushUpdates. rewrite pushUpdates_fold. simpl.
  induction Hus as [|u us [Hrt Ha] _ IH]; [done|].
  cbn [flat_map app fmap list_fmap]. rewrite <-IH. clear IH.
  change " " with (String space "").
  pose proof (topLevelPath_no_space domain (repoTag u) Hd Hrt) as Htop.
  f_equal; [|f_equal].
  - unfold createLine. apply Split_Join; [done|].
    repeat (apply Forall_cons; split; [done|]).
    apply Forall_fmap. eapply Forall_impl; [exact Ha|].
    intros a Hna. by apply archPath_no_space.
  - unfold pushLine. apply Split_Join; [done|].
    repeat (apply Forall_cons; split; [done|]). constructor.
Qed.

(** ** How getUpdates reads the classifier *)

Lemma processArch_true_arch prefix allArchs validArch arch :
  processArch prefix allArchs validArch = (arch, true) → arch ≠ "" →
  arch = prefix ∧ prefix ∈ allArchs ∧ prefix ∈ validArch.
Proof.
  intros H Hne. destruct (decide (prefix ∈ allArchs)) as [Hin|Hn].
  - rewrite processArch_arch in H by done. injection H as <- Hv.
    by apply inValid_spec in Hv.
  - rewrite processArch_not_arch in H by done. by injection H as <-.
Qed.

(** X3: the three ways [getUpdates] goes on the answer [(arch, ok)] of
    the classifier.  It skips the repository exactly when the prefix is a
    known architecture that is not selected; it takes it for an
    architecture image exactly when the prefix is a known and selected
    architecture and is not the empty string; in every other case, the
    empty prefix listed as a selected architecture among them, it takes
    it for a top-level repository. *)
Theorem processArch_dispatch prefix allArchs validArch :
  ((processArch prefix allArchs validArch).2 = false
   ↔ prefix ∈ allArchs ∧ prefix ∉ validArch) ∧
  ((processArch prefix allArchs validArch).2 = true ∧
   (processArch prefix allArchs validArch).1 ≠ ""
   ↔ prefix ≠ "" ∧ prefix ∈ allArchs ∧ prefix ∈ validArch) ∧
  ((processArch prefix allArchs validArch).2 = true ∧
   (processArch prefix allArchs validArch).1 = ""
   ↔ prefix ∉ allArchs ∨ (prefix = "" ∧ prefix ∈ validArch)).
Proof.
  destruct (decide (prefix ∈ allArchs)) as [Hin|Hn].
  - rewrite processArch_arch by done. simpl.
    destruct (inValid prefix validArch) eqn:E.
    + apply inValid_spec in E. intuition congruence.
    + assert (prefix ∉ validArch) as Hnv.
      { intros Hv%inValid_spec. congruence. }
      intuition congruence.
  - rewrite processArch_not_arch by done. simpl. intuition congruence.
Qed.

(** ** Runs of getUpdates that fetch nothing *)

Lemma goTags_nil sch repo : goTags sch repo [] = [].
Proof. apply Permutation_nil_r, goTags_perm. Qed.

Lemma reconcileLoop_idle sch reg allArchs validArch entries digests :
  Forall (λ e, (processArch (hd "" (Strings.Split e.1 slash))
                            allArchs validArch).2 = false
               ∨ e.2 = []) entries →
  reconcileLoop sch reg allArchs validArch entries digests = inr digests.
Proof.
  induction 1 as [|[repo tags] entries H _ IH]; simpl; [done|].
  simpl in H. destruct (processArch _ allArchs validArch) as [arch ok].
  destruct ok; simpl in *; [|done].
  destruct H as [Hs | ->]; [done|]. by rewrite goTags_nil.
Qed.

(** X4: when every repository of [repoTags] belongs to an architecture
    that is left out of the run or has no tag, [getUpdates] asks the
    registry nothing: for every registry, one where every call fails as
    well, it returns no record and no error. *)
Theorem getUpdates_idle sch reg repoTags allArchs validArch :
  (∀ repo tags,
      repoTags !! repo = Some tags →
      (processArch (hd "" (Strings.Split repo slash))
                   allArchs validArch).2 = false
      ∨ tags = []) →
  getUpdates sch reg repoTags allArchs validArch = ([], None).
Proof.
  intros H. unfold getUpdates, reconcile.
  rewrite reconcileLoop_idle.
  - assert (rangeDigests sch ∅ = []) as ->; [|done].
    apply Permutation_nil_r.
    by rewrite (rangeDigests_perm sch ∅), map_to_list_empty.
  - apply Forall_forall. intros [repo tags] Hin.
    apply elem_of_rangeRepoTags in Hin. by apply H.
Qed.

(** ** The architectures of a record *)

Lemma fetchObservations_Produced reg allArchs validArch repo tag rt d a :
  Produced rt d a ∈ fetchObservations reg allArchs validArch repo tag →
  a = hd "" (Strings.Split repo slash) ∧ a ≠ "" ∧
  a ∈ allArchs ∧ a ∈ validArch.
Proof.
  unfold fetchObservations, fetched.
  destruct (processArch _ allArchs validArch) as [arch ok] eqn:E.
  destruct ok; [|by intros ?%elem_of_nil].
  case_bool_decide as Hne.
  - destruct (ManifestList reg repo tag) as [err|ml];
      [by intros ?%elem_of_nil|].
    by intros (dig & ? & _)%list_elem_of_fmap.
  - destruct (ParseImage reg _) as [err|image]; [by intros ?%elem_of_nil|].
    destruct (ImageDigest reg image) as [err|dig];
      [by intros ?%elem_of_nil|].
    intros [= -> -> ->]%list_elem_of_singleton.
    destruct (processArch_true_arch _ _ _ _ E Hne) as (-> & ? & ?).
    done.
Qed.

Lemma elem_of_observations sch reg repoTags allArchs validArch o :
  o ∈ observations sch reg repoTags allArchs validArch ↔
  ∃ repo tags tag,
    repoTags !! repo = Some tags ∧ tag ∈ tags ∧
    o ∈ fetchObservations reg allArchs validArch repo tag.
Proof.
  unfold observations, repoObservations.
  rewrite list_elem_of_In, in_flat_map. split.
  - intros ([repo tags] & Hin & Ho). simpl in Ho.
    apply in_flat_map in Ho as (tag & Ht & Ho).
    exists repo, tags, tag.
    rewrite <-(elem_of_rangeRepoTags sch), <-(elem_of_goTags sch repo).
    by rewrite !list_elem_of_In.
  - intros (repo & tags & tag & Hr & Ht & Ho).
    exists (repo, tags). rewrite <-list_elem_of_In.
    split; [by apply elem_of_rangeRepoTags|]. simpl.
    apply in_flat_map. exists tag. rewrite <-!list_elem_of_In.
    split; [by apply elem_of_goTags | done].
Qed.

Lemma elem_of_contributors obs rt a :
  a ∈ contributors obs rt ↔ ∃ d, Produced rt d a ∈ obs.
Proof.
  induction obs as [|[rt' d' a'|rt' d'] obs IH]; simpl.
  - split; [by intros ?%elem_of_nil|]. by intros [d ?%elem_of_nil].
  - case_bool_decide as E.
    + subst rt'. rewrite elem_of_cons, IH. split.
      * intros [->|[d Hd]]; [exists d'; left | exists d; by right].
      * intros [d [[= -> ->]|Hd]%elem_of_cons]; [by left | right; by exists d].
    + rewrite IH. split.
      * intros [d Hd]. exists d. by right.
      * intros [d [[= -> _ _]|Hd]%elem_of_cons]; [done | by exists d].
  - rewrite IH. split.
    + intros [d Hd]. exists d. by right.
    + intros [d [?|Hd]%elem_of_cons]; [done | by exists d].
Qed.

Lemma getUpdates_elem sch reg repoTags allArchs validArch u :
  u ∈ (getUpdates sch reg repoTags allArchs validArch).1 →
  ∃ digests,
    reconcile sch reg repoTags allArchs validArch = inr digests ∧
    archs u = archsOf digests (repoTag u) ∧
    ∃ d, count digests (repoTag u) d ≠ 0.
Proof.
  unfold getUpdates.
  destruct (reconcile sch reg repoTags allArchs validArch)
    as [err|digests]; simpl; [by intros ?%elem_of_nil|].
  intros Hu%collectUpdates_spec. by exists digests.
Qed.

(** X5: a record lists the architecture of every image that was seen for
    its RepoTag, those whose digest the manifest list declares among
    them, in the order in which they were folded in, and nothing else:
    each of its architectures is the first segment of a repository of
    [repoTags], is not empty and is one of [allArchs] and of
    [validArch]. *)
Theorem record_architectures sch reg repoTags allArchs validArch u :
  u ∈ (getUpdates sch reg repoTags allArchs validArch).1 →
  archs u = contributors (observations sch reg repoTags allArchs validArch)
                         (repoTag u) ∧
  (∀ a, a ∈ archs u ↔
        ∃ d, Produced (repoTag u) d a
             ∈ observations sch reg repoTags allArchs validArch) ∧
  (∀ a, a ∈ archs u →
        a ≠ "" ∧ a ∈ allArchs ∧ a ∈ validArch ∧
        ∃ repo tags, repoTags !! repo = Some tags ∧
                     hd "" (Strings.Split repo slash) = a).
Proof.
  intros (digests & H & Ha & _)%getUpdates_elem.
  rewrite Ha, (reconcile_archs _ _ _ _ _ _ _ H).
  split; [done|]. split.
  - intros a. apply elem_of_contributors.
  - intros a [d Hd]%elem_of_contributors.
    apply elem_of_observations in Hd as (repo & tags & tag & Hr & _ & Ho).
    apply fetchObservations_Produced in Ho as (-> & ? & ? & ?).
    repeat (split; [done|]). by exists repo, tags.
Qed.

(** ** Where the errors of getUpdates come from *)

Lemma reconcile_fails_iff sch reg repoTags allArchs validArch :
  (∃ err, reconcile sch reg repoTags allArchs validArch = inl err) ↔
  ∃ repo tags tag err,
    repoTags !! repo = Some tags ∧ tag ∈ tags ∧
    fetched reg allArchs validArch repo tag = inl err.
Proof.
  split.
  - intros [err H].
    destruct (reconcileLoop_inl sch reg allArchs validArch _ _ _ H)
      as (repo & tags & tag & Hin & Ht & Hf).
    exists repo, tags, tag, err.
    by rewrite <-(elem_of_rangeRepoTags sch), <-(elem_of_goTags sch repo).
  - intros (repo & tags & tag & err & Hr & Ht & Hf).
    apply (elem_of_rangeRepoTags sch) in Hr.
    apply (elem_of_goTags sch repo) in Ht.
    apply (reconcileLoop_fails sch reg allArchs validArch _ ∅ _ _ _ _
             Hr Ht Hf).
Qed.

(** X6: [getUpdates] has no error of its own.  It returns without error
    exactly when the fetch of every tag of every repository of
    [repoTags] succeeds (a repository that is skipped has nothing to
    fetch), and an error it returns is the error of one of these
    fetches. *)
Theorem getUpdates_errors sch reg repoTags allArchs validArch :
  ((getUpdates sch reg repoTags allArchs validArch).2 = None ↔
   ∀ repo tags tag,
     repoTags !! repo = Some tags → tag ∈ tags →
     ∃ obs, fetched reg allArchs validArch repo tag = inr obs) ∧
  (∀ err,
      (getUpdates sch reg repoTags allArchs validArch).2 = Some err →
      ∃ repo tags tag,
        repoTags !! repo = Some tags ∧ tag ∈ tags ∧
        fetched reg allArchs validArch repo tag = inl err).
Proof.
  pose proof (reconcile_fails_iff sch reg repoTags allArchs validArch)
    as Hiff.
  unfold getUpdates.
  destruct (reconcile sch reg repoTags allArchs validArch)
    as [err|digests] eqn:H; simpl; split.
  - split; [done|]. intros Hall.
    destruct (proj1 Hiff) as (repo & tags & tag & err' & Hr & Ht & Hf);
      [by exists err|].
    destruct (Hall repo tags tag Hr Ht) as [obs Hobs]. congruence.
  - intros err' [= <-].
    destruct (reconcileLoop_inl sch reg allArchs validArch _ _ _ H)
      as (repo & tags & tag & Hin & Ht & Hf).
    exists repo, tags, tag.
    by rewrite <-(elem_of_rangeRepoTags sch), <-(elem_of_goTags sch repo).
  - split; [|done]. intros _ repo tags tag Hr Ht.
    destruct (fetched reg allArchs validArch repo tag) as [err|obs] eqn:Hf;
      [|by exists obs].
    destruct (proj2 Hiff) as [err' ?]; [|done].
    by exists repo, tags, tag, err.
  - done.
Qed.

(** ** The records under two schedulers *)

Lemma contributors_Permutation obs1 obs2 rt :
  obs1 ≡ₚ obs2 → contributors obs1 rt ≡ₚ contributors obs2 rt.
Proof.
  induction 1 as [|o l l' _ IH|x y l|l l' l'' _ IH1 _ IH2]; simpl.
  - done.
  - destruct o as [rt' d a|rt' d]; [|done].
    case_bool_decide; by rewrite IH.
  - destruct x as [rt1 d1 a1|rt1 d1], y as [rt2 d2 a2|rt2 d2]; try done.
    repeat case_bool_decide; try done. apply perm_swap.
  - by rewrite IH1.
Qed.

Lemma elem_of_repoTags_collect sch (digests : gmap string containerInfo.t) rt :
  rt ∈ repoTag <$> collectUpdates sch (rangeDigests sch digests) ↔
  ∃ d, count digests rt d ≠ 0.
Proof.
  rewrite list_elem_of_fmap. split.
  - intros (u & -> & Hu). by apply collectUpdates_spec in Hu as [_ ?].
  - intros Hd. exists {| repoTag := rt; archs := archsOf digests rt |}.
    split; [done|]. by apply collectUpdates_spec.
Qed.

Lemma reconcile_sameCounts sch1 sch2 reg repoTags allArchs validArch
    digests1 digests2 :
  reconcile sch1 reg repoTags allArchs validArch = inr digests1 →
  reconcile sch2 reg repoTags allArchs validArch = inr digests2 →
  sameCounts digests1 digests2.
Proof.
  intros H1 H2 rt d.
  rewrite (reconcile_count _ _ _ _ _ _ _ _ H1),
    (reconcile_count _ _ _ _ _ _ _ _ H2).
  unfold produced, declared.
  by rewrite !(tally_Permutation _ _ _
    (observations_Permutation sch1 sch2 reg repoTags allArchs validArch)).
Qed.

(** X7: what [getUpdates] returns does not depend on the scheduler
    beyond the order.  Under any two schedulers it fails or succeeds
    alike, the records are for the same RepoTags, and the records of one
    RepoTag list the same architectures as often, in some order. *)
Theorem getUpdates_schedulers sch1 sch2 reg repoTags allArchs validArch :
  ((getUpdates sch1 reg repoTags allArchs validArch).2 = None ↔
   (getUpdates sch2 reg repoTags allArchs validArch).2 = None) ∧
  repoTag <$> (getUpdates sch1 reg repoTags allArchs validArch).1
  ≡ₚ repoTag <$> (getUpdates sch2 reg repoTags allArchs validArch).1 ∧
  (∀ u1, u1 ∈ (getUpdates sch1 reg repoTags allArchs validArch).1 →
         ∃ u2, u2 ∈ (getUpdates sch2 reg repoTags allArchs validArch).1 ∧
               repoTag u2 = repoTag u1 ∧ archs u2 ≡ₚ archs u1).
Proof.
  pose proof (reconcile_fails_iff sch1 reg repoTags allArchs validArch) as F1.
  pose proof (reconcile_fails_iff sch2 reg repoTags allArchs validArch) as F2.
  unfold getUpdates.
  destruct (reconcile sch1 reg repoTags allArchs validArch)
    as [err1|digests1] eqn:H1,
     (reconcile sch2 reg repoTags allArchs validArch)
    as [err2|digests2] eqn:H2; simpl.
  - split; [done|]. split; [done|]. by intros u1 ?%elem_of_nil.
  - destruct (proj2 F2 (proj1 F1 (ex_intro _ err1 eq_refl))) as [? ?]. done.
  - destruct (proj2 F1 (proj1 F2 (ex_intro _ err2 eq_refl))) as [? ?]. done.
  - pose proof (reconcile_sameCounts _ _ _ _ _ _ _ _ H1 H2) as Hs.
    split; [done|]. split.
    + apply NoDup_Permutation; [apply collectUpdates_NoDup..|].
      intros rt. rewrite !elem_of_repoTags_collect.
      split; intros [d Hd]; exists d; [by rewrite <-Hs | by rewrite Hs].
    + intros u1 [Ha [d Hd]]%collectUpdates_spec.
      exists {| repoTag := repoTag u1; archs := archsOf digests2 (repoTag u1) |}.
      split; [|split; [done|]].
      * apply collectUpdates_spec. simpl. split; [done|].
        exists d. by rewrite <-Hs.
      * simpl. rewrite Ha.
        rewrite (reconcile_archs _ _ _ _ _ _ _ H1),
          (reconcile_archs _ _ _ _ _ _ _ H2).
        apply contributors_Permutation, observations_Permutation.
Qed.

(** ** What the critical sections leave alone *)

Lemma decrements_lookup_ne rt ml : ∀ (digests : gmap string containerInfo.t) rt',
  rt' ≠ rt → fold_left (decrement rt) ml digests !! rt' = digests !! rt'.
Proof.
  induction ml as [|dig ml IH]; intros digests rt' Hne; simpl; [done|].
  rewrite IH by done. unfold decrement.
  destruct (digests !! rt); [|done]. by rewrite lookup_insert_ne.
Qed.

Lemma decrements_dom rt ml : ∀ digests : gmap string containerInfo.t,
  dom (fold_left (decrement rt) ml digests) = dom digests.
Proof.
  induction ml as [|dig ml IH]; intros digests; simpl; [done|].
  rewrite IH. unfold decrement.
  destruct (digests !! rt) as [info|] eqn:E; [|done].
  by apply dom_insert_lookup_L.
Qed.

(** X8: a critical section works on the entry of its own RepoTag and on
    no other.  After it the RepoTag is a key of [digests], every other
    entry is as it was, and no key is lost. *)
Theorem sections_touch_one_entry rt dig arch ml
    (digests : gmap string containerInfo.t) :
  (∀ rt', rt' ≠ rt →
          archSection rt dig arch digests !! rt' = digests !! rt' ∧
          topSection rt ml digests !! rt' = digests !! rt') ∧
  dom (archSection rt dig arch digests) = {[rt]} ∪ dom digests ∧
  dom (topSection rt ml digests) = {[rt]} ∪ dom digests.
Proof.
  split; [|split].
  - intros rt' Hne. split.
    + unfold archSection. by rewrite lookup_insert_ne.
    + unfold topSection. rewrite decrements_lookup_ne by done.
      unfold ensure. destruct (digests !! rt); [done|].
      by rewrite lookup_insert_ne.
  - unfold archSection. apply dom_insert_L.
  - unfold topSection. rewrite decrements_dom. unfold ensure.
    destruct (digests !! rt) as [info|] eqn:E; [|apply dom_insert_L].
    apply (elem_of_dom_2 (D:=gset string)) in E.
    apply set_eq. intros x. rewrite elem_of_union, elem_of_singleton.
    split; [by right|]. by intros [->|?].
Qed.

(** ** The inventory *)

Lemma tagsTasks_out reg order : ∀ out m first,
  (fold_left (tagsTask reg) order (out, (m, first))).1
  = out ++ omap (listingFailure reg) order.
Proof.
  induction order as [|repo order IH]; intros out m first.
  - simpl. by rewrite app_nil_r.
  - cbn [fold_left tagsTask omap list_omap]. unfold listingFailure at 1.
    destruct (Tags reg repo) as [err|tags]; rewrite IH; [|done].
    by rewrite <-app_assoc.
Qed.

Lemma tagsTasks_no_error reg order : ∀ out m,
  (fold_left (tagsTask reg) order (out, (m, None))).2.2 = None ↔
  ∀ repo, repo ∈ order → ∃ tags, Tags reg repo = inr tags.
Proof.
  induction order as [|repo order IH]; intros out m.
  - simpl. split; [|done]. by intros _ repo ?%elem_of_nil.
  - cbn [fold_left tagsTask].
    destruct (Tags reg repo) as [err|tags] eqn:E.
    + rewrite tagsTasks_first. split; [done|]. intros H.
      destruct (H repo) as [tags ?]; [left | congruence].
    + rewrite IH. split.
      * intros H r [->|Hin]%elem_of_cons; [by exists tags | by apply H].
      * intros H r Hin. apply H. by right.
Qed.

Lemma omap_listingFailure_nil reg order :
  (∀ repo, repo ∈ order → ∃ tags, Tags reg repo = inr tags) →
  omap (listingFailure reg) order = [].
Proof.
  induction order as [|repo order IH]; intros H; [done|].
  cbn [omap list_omap]. unfold listingFailure at 1.
  destruct (H repo) as [tags ->]; [left|].
  apply IH. intros r Hin. apply H. by right.
Qed.

(** X9: the inventory of a registry whose catalog is read.  Whether a
    listing fails or not, the map returned holds the tags of exactly the
    repositories of the catalog whose listing succeeded; one line is
    printed for every listing that failed, in the order of the
    goroutines and not for the first failure only; and the error is
    [nil] exactly when every listing succeeded, in which case nothing is
    printed. *)
Theorem getAllRepoTags_inventory sch reg repos :
  Catalog reg = inr repos →
  (∀ r tags, (getAllRepoTags sch reg).2.1 !! r = Some tags
             ↔ r ∈ repos ∧ Tags reg r = inr tags) ∧
  (getAllRepoTags sch reg).1 = omap (listingFailure reg) (goRepos sch repos) ∧
  ((getAllRepoTags sch reg).2.2 = None
   ↔ ∀ repo, repo ∈ repos → ∃ tags, Tags reg repo = inr tags) ∧
  ((getAllRepoTags sch reg).2.2 = None → (getAllRepoTags sch reg).1 = []).
Proof.
  intros Hc. unfold getAllRepoTags. rewrite Hc.
  assert ((fold_left (tagsTask reg) (goRepos sch repos) ([], (∅, None))).2.2
          = None
          ↔ ∀ repo, repo ∈ repos → ∃ tags, Tags reg repo = inr tags) as Hn.
  { rewrite tagsTasks_no_error. split; intros H repo Hin; apply H.
    - by rewrite (goRepos_perm sch repos).
    - by rewrite <-(goRepos_perm sch repos). }
  split; [|split; [|split]].
  - intros r tags. rewrite tagsTasks_lookup, lookup_empty.
    destruct (Tags reg r) as [e|tags'] eqn:E.
    + split; [done | by intros [_ ?]].
    + destruct (decide (r ∈ goRepos sch repos)) as [Hr|Hr];
        rewrite (goRepos_perm sch repos) in Hr.
      * split; [by intros [= ->] | by intros [_ [= ->]]].
      * split; [done | by intros [? _]].
  - by rewrite tagsTasks_out.
  - exact Hn.
  - intros H. rewrite tagsTasks_out. simpl.
    apply omap_listingFailure_nil. intros repo Hin.
    apply (proj1 Hn H). by rewrite <-(goRepos_perm sch repos).
Qed.

Lemma getAllRepoTags_quiet sch reg :
  (getAllRepoTags sch reg).2.2 = None → (getAllRepoTags sch reg).1 = [].
Proof.
  unfold getAllRepoTags. destruct (Catalog reg) as [[msg|msg]|repos] eqn:Hc;
    [done..|].
  intros H. rewrite tagsTasks_out. simpl.
  apply omap_listingFailure_nil. by apply (tagsTasks_no_error reg _ [] ∅).
Qed.

(** ** run *)

(** X10: the standard output of [run].  When [run] returns no error,
    neither [getAllRepoTags] nor [getUpdates] failed and the output is
    the plan and nothing else: for each record the create line and the
    push line, each ended by a newline.  When [run] returns an error, no
    line of a plan is printed: the output is what the failed listings
    printed, and it is empty when the error is the one of [getUpdates]. *)
Theorem run_output sch reg allArchs archs :
  ((run sch reg allArchs archs).2 = None →
   (getAllRepoTags sch reg).2.2 = None ∧
   (getUpdates sch reg (getAllRepoTags sch reg).2.1 allArchs archs).2 = None ∧
   (run sch reg allArchs archs).1
   = Println <$> flat_map (λ u, [createLine (Domain reg) u;
                                 pushLine (Domain reg) u])
       (getUpdates sch reg (getAllRepoTags sch reg).2.1 allArchs archs).1) ∧
  (∀ err,
      (run sch reg allArchs archs).2 = Some err →
      (run sch reg allArchs archs).1 = (getAllRepoTags sch reg).1 ∧
      ((getAllRepoTags sch reg).2.2 = Some err
       ∨ ((getAllRepoTags sch reg).2.2 = None ∧
          (run sch reg allArchs archs).1 = [] ∧
          (getUpdates sch reg (getAllRepoTags sch reg).2.1 allArchs archs).2
          = Some err))).
Proof.
  pose proof (getAllRepoTags_quiet sch reg) as Hq.
  unfold run.
  destruct (getAllRepoTags sch reg) as [out [repoTags [e|]]]; simpl in *.
  { split; [done|]. intros err [= <-]. split; [done | by left]. }
  rewrite (Hq eq_refl).
  destruct (getUpdates sch reg repoTags allArchs archs)
    as [updates [e|]] eqn:Hu; simpl.
  { split; [done|]. intros err [= <-]. split; [done | by right]. }
  case_bool_decide as Hlen.
  - simpl. split; [|done]. intros _.
    apply length_zero_iff_nil in Hlen. by rewrite Hlen.
  - unfold pushUpdates. rewrite pushUpdates_fold. simpl.
    split; [|done]. done.
Qed.

(** ** main *)

Lemma run_catalog_error sch reg allArchs archs err :
  Catalog reg = inl err →
  run sch reg allArchs archs
  = ([], Some (match err with
               | SyntaxError _ =>
                   Errorf ("domain " +:+ Domain reg
                             +:+ " is not a valid registry")
               | OtherError _ => err
               end)).
Proof.
  intros Hc. unfold run, getAllRepoTags. rewrite Hc. by destruct err.
Qed.


(** X12: the errors met before the inventory are fatal and nothing is
    printed before them.  [main] ends in [log.Fatal] with the text of the
    error when the credentials cannot be read, when [registry.New],
    called for ["https://"] and the domain, fails, and when the catalog
    cannot be read; a catalog that is not JSON gives the text
    [domain ... is not a valid registry] in place of the text of the
    error. *)
Theorem main_fatal_errors sch pkg a all domain :
  (∀ err, GetAuthConfig pkg "" "" domain = inl err →
          main sch pkg a all [domain] = ([], Fatal (errorText err))) ∧
  (∀ auth err,
      GetAuthConfig pkg "" "" domain = inr auth →
      New pkg auth ("https://" +:+ domain) = inl err →
      main sch pkg a all [domain] = ([], Fatal (errorText err))) ∧
  (∀ auth reg err,
      GetAuthConfig pkg "" "" domain = inr auth →
      New pkg auth ("https://" +:+ domain) = inr reg →
      Catalog reg = inl err →
      main sch pkg a all [domain]
      = ([], Fatal (match err with
                    | SyntaxError _ =>
                        "domain " +:+ Domain reg
                          +:+ " is not a valid registry"
                    | OtherError msg => msg
                    end))).
Proof.
  split; [|split].
  - intros err Ha. rewrite main_one_argument. unfold getRegistry.
    by rewrite Ha.
  - intros auth err Ha Hn. rewrite main_one_argument. unfold getRegistry.
    by rewrite Ha, Hn.
  - intros auth reg err Ha Hn Hc. rewrite main_one_argument.
    unfold getRegistry. rewrite Ha, Hn.
    rewrite (run_catalog_error _ _ _ _ _ Hc). by destruct err.
Qed.

(** ** No record without a mismatch *)

(** X13: a record is never a false alarm.  The RepoTag of a record has a
    digest that is not declared as often as it is produced; and a
    RepoTag whose digests are all declared as often as produced has no
    record, whatever the other RepoTags are like. *)
Theorem record_has_mismatch sch reg repoTags allArchs validArch :
  (∀ u, u ∈ (getUpdates sch reg repoTags allArchs validArch).1 →
        ∃ d, produced (observations sch reg repoTags allArchs validArch)
                      (repoTag u) d
             ≠ declared (observations sch reg repoTags allArchs validArch)
                        (repoTag u) d) ∧
  (∀ rt,
      (∀ d, produced (observations sch reg repoTags allArchs validArch) rt d
            = declared (observations sch reg repoTags allArchs validArch)
                       rt d) →
      rt ∉ repoTag <$> (getUpdates sch reg repoTags allArchs validArch).1).
Proof.
  assert (∀ u, u ∈ (getUpdates sch reg repoTags allArchs validArch).1 →
               ∃ d, produced (observations sch reg repoTags allArchs
                                validArch) (repoTag u) d
                    ≠ declared (observations sch reg repoTags allArchs
                                  validArch) (repoTag u) d) as H1.
  { intros u (digests & H & _ & d & Hd)%getUpdates_elem.
    exists d. intros Heq. apply Hd.
    by rewrite (reconcile_count _ _ _ _ _ _ _ _ H), Heq, Z.sub_diag. }
  split; [exact H1|].
  intros rt Heq (u & -> & Hu)%list_elem_of_fmap.
  destruct (H1 u Hu) as [d Hd]. by apply Hd.
Qed.

(** * The further theorems on the sample registry *)

Lemma task_strips_architecture_witness :
  hasByte slash "amd64" = false ∧
  task Sample.reg "amd64/rck" (Strings.Split "amd64/rck" slash) "amd64" true
       "latest" ∅
  = inr (archSection "rck:latest" "sha256:AAA" "amd64" ∅) ∧
  task Cases.regOneDigest "amd64" (Strings.Split "amd64" slash) "amd64" true
       "latest" ∅
  = inr (archSection ":latest" "sha256:CCC" "amd64" ∅).
Proof.
  assert (hasByte slash "amd64" = false) as Hs by reflexivity.
  split; [exact Hs|]. split.
  - exact (proj1 (task_strips_architecture Sample.reg "amd64" "latest"
                    "registry.io/amd64/rck:latest" "sha256:AAA" ∅ Hs)
             "rck" eq_refl eq_refl).
  - exact (proj2 (task_strips_architecture Cases.regOneDigest "amd64" "latest"
                    "registry.io/amd64:latest" "sha256:CCC" ∅ Hs)
             eq_refl eq_refl).
Defined.

Lemma pushUpdates_words_witness :
  hasByte space "registry.io" = false ∧
  (λ line, Strings.Split line space)
    <$> (pushUpdates [Cases.record] "registry.io").1
  = [["docker"; "manifest"; "create"; "--insecure"; "--amend";
      "registry.io/rck:latest"; "registry.io/s390x/rck:latest";
      "registry.io/amd64/rck:latest"];
     ["docker"; "manifest"; "push"; "--insecure"; "registry.io/rck:latest"]].
Proof.
  assert (hasByte space "registry.io" = false) as Hd by reflexivity.
  split; [exact Hd|].
  apply (pushUpdates_words [Cases.record] "registry.io" Hd).
  repeat constructor.
Defined.

Lemma getUpdates_idle_witness :
  getUpdates inOrder Cases.regNoCatalog Cases.leftOut Sample.allArchs
             Sample.archs = ([], None).
Proof.
  apply getUpdates_idle. intros repo tags H. unfold Cases.leftOut in H.
  apply lookup_insert_Some in H as [[<- <-]|[_ H]]; [by left|].
  apply lookup_insert_Some in H as [[<- <-]|[_ H]]; [by left|].
  apply lookup_singleton_Some in H as [<- <-]. by right.
Defined.

Lemma sample_record :
  Cases.record ∈ (getUpdates inOrder Sample.reg Sample.repoTags
                    Sample.allArchs Sample.archs).1.
Proof.
  change ((getUpdates inOrder Sample.reg Sample.repoTags Sample.allArchs
             Sample.archs).1) with [Cases.record].
  apply list_elem_of_here.
Defined.

Lemma record_architectures_witness :
  (Cases.record ∈ (getUpdates inOrder Sample.reg Sample.repoTags
                     Sample.allArchs Sample.archs).1) ∧
  archs Cases.record
  = contributors (observations inOrder Sample.reg Sample.repoTags
                    Sample.allArchs Sample.archs) "rck:latest" ∧
  ("s390x" ∈ archs Cases.record) ∧
  "s390x" ≠ "" ∧ ("s390x" ∈ Sample.allArchs) ∧ ("s390x" ∈ Sample.archs).
Proof.
  destruct (record_architectures inOrder Sample.reg Sample.repoTags
              Sample.allArchs Sample.archs Cases.record sample_record)
    as (H1 & _ & H3).
  assert ("s390x" ∈ archs Cases.record) as Hin by apply list_elem_of_here.
  split; [exact sample_record|]. split; [exact H1|]. split; [exact Hin|].
  destruct (H3 "s390x" Hin) as (Ha & Hb & Hc & _). by repeat split.
Defined.

Lemma getUpdates_errors_witness :
  (getUpdates inOrder Sample.reg Sample.repoTags Sample.allArchs
              Sample.archs).2 = None ∧
  (∃ obs, fetched Sample.reg Sample.allArchs Sample.archs "rck" "latest"
          = inr obs) ∧
  (getUpdates inOrder Sample.reg Sample.withStale Sample.allArchs
              Sample.archs).2 = Some (OtherError "manifest unknown") ∧
  ∃ repo tags tag,
    Sample.withStale !! repo = Some tags ∧ tag ∈ tags ∧
    fetched Sample.reg Sample.allArchs Sample.archs repo tag
    = inl (OtherError "manifest unknown").
Proof.
  assert ((getUpdates inOrder Sample.reg Sample.repoTags Sample.allArchs
             Sample.archs).2 = None) as H1 by (vm_compute; reflexivity).
  assert ((getUpdates inOrder Sample.reg Sample.withStale Sample.allArchs
             Sample.archs).2 = Some (OtherError "manifest unknown")) as H2
    by (vm_compute; reflexivity).
  assert (Sample.repoTags !! "rck" = Some ["latest"]) as Hr
    by (vm_compute; reflexivity).
  split; [exact H1|]. split; [|split; [exact H2|]].
  - exact (proj1 (proj1 (getUpdates_errors inOrder Sample.reg Sample.repoTags
                           Sample.allArchs Sample.archs)) H1
             "rck" ["latest"] "latest" Hr (list_elem_of_here _ _)).
  - exact (proj2 (getUpdates_errors inOrder Sample.reg Sample.withStale
                    Sample.allArchs Sample.archs) _ H2).
Defined.

Lemma getUpdates_schedulers_witness :
  (Cases.record ∈ (getUpdates inOrder Sample.reg Sample.repoTags
                     Sample.allArchs Sample.archs).1) ∧
  ∃ u2, u2 ∈ (getUpdates Sample.reversed Sample.reg Sample.repoTags
                Sample.allArchs Sample.archs).1 ∧
        repoTag u2 = "rck:latest" ∧ archs u2 ≡ₚ ["s390x"; "amd64"].
Proof.
  split; [exact sample_record|].
  exact (proj2 (proj2 (getUpdates_schedulers inOrder Sample.reversed
                         Sample.reg Sample.repoTags Sample.allArchs
                         Sample.archs)) Cases.record sample_record).
Defined.

Lemma sections_touch_one_entry_witness :
  "rck:v1" ≠ "rck:latest" ∧
  archSection "rck:latest" "sha256:AAA" "amd64" Sample.digests !! "rck:v1"
  = Sample.digests !! "rck:v1" ∧
  topSection "rck:latest" ["sha256:AAA"] Sample.digests !! "rck:v1"
  = Sample.digests !! "rck:v1".
Proof.
  assert ("rck:v1" ≠ "rck:latest") as Hne by discriminate.
  split; [exact Hne|].
  exact (proj1 (sections_touch_one_entry "rck:latest" "sha256:AAA" "amd64"
                  ["sha256:AAA"] Sample.digests) "rck:v1" Hne).
Defined.

Lemma getAllRepoTags_inventory_witness :
  Catalog Cases.regTwoPrivate = inr ["private"; "rck"; "private"] ∧
  (getAllRepoTags inOrder Cases.regTwoPrivate).1
  = ["get tags of [private] error: unauthorized";
     "get tags of [private] error: unauthorized"] ∧
  ((getAllRepoTags inOrder Cases.regTwoPrivate).2.1 !! "rck" = Some ["latest"]
   ↔ "rck" ∈ ["private"; "rck"; "private"] ∧
     Tags Cases.regTwoPrivate "rck" = inr ["latest"]).
Proof.
  assert (Catalog Cases.regTwoPrivate = inr ["private"; "rck"; "private"])
    as Hc by reflexivity.
  destruct (getAllRepoTags_inventory inOrder Cases.regTwoPrivate _ Hc)
    as (H1 & H2 & _).
  split; [exact Hc|]. split; [exact H2 | exact (H1 "rck" ["latest"])].
Defined.

Lemma run_output_witness :
  (run inOrder Sample.reg Sample.allArchs Sample.archs).2 = None ∧
  (run inOrder Sample.reg Sample.allArchs Sample.archs).1
  = Println <$> flat_map (λ u, [createLine "registry.io" u;
                                pushLine "registry.io" u])
      (getUpdates inOrder Sample.reg
         (getAllRepoTags inOrder Sample.reg).2.1
         Sample.allArchs Sample.archs).1 ∧
  (run inOrder Sample.regPrivate Sample.allArchs Sample.archs).2
  = Some (OtherError "unauthorized") ∧
  (run inOrder Sample.regPrivate Sample.allArchs Sample.archs).1
  = (getAllRepoTags inOrder Sample.regPrivate).1.
Proof.
  assert ((run inOrder Sample.reg Sample.allArchs Sample.archs).2 = None)
    as H1 by (vm_compute; reflexivity).
  assert ((run inOrder Sample.regPrivate Sample.allArchs Sample.archs).2
          = Some (OtherError "unauthorized")) as H2
    by (vm_compute; reflexivity).
  split; [exact H1|]. split; [|split; [exact H2|]].
  - exact (proj2 (proj2 (proj1 (run_output inOrder Sample.reg
                                  Sample.allArchs Sample.archs) H1))).
  - exact (proj1 (proj2 (run_output inOrder Sample.regPrivate
                           Sample.allArchs Sample.archs) _ H2)).
Defined.


Lemma main_fatal_errors_witness :
  main inOrder Cases.pkgNoAuth None None ["registry.io"]
  = ([], Fatal "no credentials") ∧
  main inOrder Cases.pkgNoRegistry None None ["registry.io"]
  = ([], Fatal "connection refused") ∧
  main inOrder Cases.pkgNoCatalog None None ["registry.io"]
  = ([], Fatal "domain registry.io is not a valid registry").
Proof.
  split; [|split].
  - exact (proj1 (main_fatal_errors inOrder Cases.pkgNoAuth None None
                    "registry.io") _ eq_refl).
  - exact (proj1 (proj2 (main_fatal_errors inOrder Cases.pkgNoRegistry
                           None None "registry.io")) _ _ eq_refl eq_refl).
  - exact (proj2 (proj2 (main_fatal_errors inOrder Cases.pkgNoCatalog
                           None None "registry.io"))
             _ Cases.regNoCatalog _ eq_refl eq_refl eq_refl).
Defined.

Lemma record_has_mismatch_witness :
  (Cases.record ∈ (getUpdates inOrder Sample.reg Sample.repoTags
                     Sample.allArchs Sample.archs).1) ∧
  ∃ d, produced (observations inOrder Sample.reg Sample.repoTags
                   Sample.allArchs Sample.archs) "rck:latest" d
       ≠ declared (observations inOrder Sample.reg Sample.repoTags
                     Sample.allArchs Sample.archs) "rck:latest" d.
Proof.
  split; [exact sample_record|].
  exact (proj1 (record_has_mismatch inOrder Sample.reg Sample.repoTags
                  Sample.allArchs Sample.archs) Cases.record sample_record).
Defined.
